(** * documentParser.js: extraction, flattening and merging of records

    A shallow embedding of [src/utils/documentParser.js], followed by the
    properties that the specification states of it.

    Conventions of the embedding.
    - Text is a [string]; each character stands for the UTF-16 code unit
      with the same number (U+0000 to U+00FF).
    - A number is carried by its canonical rendering [String(n)], which is
      all this program observes of a number (rendering, truthiness and
      serialisation); [JSON.parse] computes it from the literal in exact
      integer arithmetic.
    - An object is the list of its own enumerable properties in the order
      in which the engine enumerates them: the keys that are array indices
      first, in ascending order, then the other keys in insertion order.
      Its prototype is [Object.prototype]: a read [o[k]] of a key that [o]
      does not own finds what [Object.prototype] holds under [k], and a
      write [o[k] = v] of the key [__proto__] that [o] does not own reaches
      the setter that [Object.prototype] holds and adds no property.
    - The Records that the merger returns hold what [entry[key]] reads: a
      JSON value or a member of [Object.prototype].
    - A thrown exception is [None] or [Thrown]; at the top level the
      promise is [Rejected]. What the embedding does not render is
      [Unmodelled], [Beyond] or [NotModelled]: an escape above U+00FF in a
      JSON text, and a table row that replaces the prototype of its
      Record. *)

From Stdlib Require Import List Bool Arith Lia ZArith.
From Stdlib Require Import Ascii String DecimalString.
Import ListNotations.
Local Open Scope string_scope.

(** ** Characters *)

Definition code (c : ascii) : nat := nat_of_ascii c.

Definition is_code (n : nat) (c : ascii) : bool := (code c =? n)%nat.

Definition is_digit (c : ascii) : bool :=
  ((48 <=? code c) && (code c <=? 57))%nat.

(** ** Objects *)

(** The own enumerable properties of an object, in enumeration order. *)
Definition Properties (V : Type) : Type := list (string * V).

(** [Object.keys(o)] *)
Definition keys {V : Type} (o : Properties V) : list string := map fst o.

(** The own property [k] of [o]; [None] when [o] does not own [k]. *)
Fixpoint get {V : Type} (k : string) (o : Properties V) : option V :=
  match o with
  | [] => None
  | (k', v) :: o' => if String.eqb k k' then Some v else get k o'
  end.

Definition hasOwn {V : Type} (k : string) (o : Properties V) : bool :=
  existsb (String.eqb k) (keys o).

(** The number that a run of digits denotes. *)
Fixpoint digitsValue (ds : string) (acc : Z) : Z :=
  match ds with
  | String c ds' => digitsValue ds' (10 * acc + Z.of_nat (code c - 48))%Z
  | EmptyString => acc
  end.

Definition string_of_Z (z : Z) : string :=
  NilZero.string_of_uint (N.to_uint (Z.to_N z)).

(** The number of a key that is an array index: the key is the decimal
    numeral of an integer below [2 ^ 32 - 1]. *)
Definition arrayIndex (k : string) : option Z :=
  let i := digitsValue k 0 in
  if (String.length k <=? 10)%nat && String.eqb (string_of_Z i) k
     && (i <? 4294967295)%Z
  then Some i else None.

(** The value of an existing property changes in place. *)
Fixpoint update {V : Type} (k : string) (v : V) (o : Properties V)
  : Properties V :=
  match o with
  | [] => []
  | (k', v') :: o' =>
      if String.eqb k k' then (k', v) :: o' else (k', v') :: update k v o'
  end.

(** A new property whose key is the array index [i] goes before the first
    property whose key is a larger index or no index. *)
Fixpoint insertIndex {V : Type} (i : Z) (k : string) (v : V)
    (o : Properties V) : Properties V :=
  match o with
  | [] => [(k, v)]
  | (k', v') :: o' =>
      match arrayIndex k' with
      | Some j =>
          if (j <? i)%Z then (k', v') :: insertIndex i k v o'
          else (k, v) :: o
      | None => (k, v) :: o
      end
  end.

(** The definition of the own property [k], as an object literal and
    [JSON.parse] do it: an existing property keeps its place, a new one is
    enumerated among the array indices or last. *)
Definition define {V : Type} (k : string) (v : V) (o : Properties V)
  : Properties V :=
  if hasOwn k o then update k v o
  else
    match arrayIndex k with
    | Some i => insertIndex i k v o
    | None => (o ++ [(k, v)])%list
    end.

(** [o[k] = v] on an object whose prototype is [Object.prototype]. The key
    [__proto__], unless [o] owns it, reaches the setter of
    [Object.prototype], which defines no property; every other key that
    [o] does not own is defined, the members of [Object.prototype] being
    writable. *)
Definition set {V : Type} (k : string) (v : V) (o : Properties V)
  : Properties V :=
  if negb (hasOwn k o) && String.eqb k "__proto__" then o else define k v o.

(** ** Values *)

#[local] Set Warnings "-register-all".

(** The values that JSON texts denote. *)
Inductive JValue : Type :=
| JNull
| JBool (b : bool)
| JNum (repr : string)
| JStr (s : string)
| JArr (items : list JValue)
| JObj (props : list (string * JValue)).

(** An object that holds JSON values. *)
Definition Obj : Type := Properties JValue.

(** [Object.assign(target, source)]. *)
Definition assign (target source : Obj) : Obj :=
  fold_left (fun t kv => set (fst kv) (snd kv) t) source target.

(** Truthiness, as [||] and [if] test it. *)
Definition truthy (v : JValue) : bool :=
  match v with
  | JNull => false
  | JBool b => b
  | JNum r => negb (String.eqb r "0" || String.eqb r "NaN")
  | JStr s => negb (String.eqb s "")
  | JArr _ | JObj _ => true
  end.

(** [typeof v === 'object'] (true of [null] as well). *)
Definition typeof_object (v : JValue) : bool :=
  match v with
  | JNull | JArr _ | JObj _ => true
  | _ => false
  end.

Definition is_null (v : JValue) : bool :=
  match v with JNull => true | _ => false end.

Definition isArray (v : JValue) : bool :=
  match v with JArr _ => true | _ => false end.

(** An object in the sense of the language: an array or an object. *)
Definition isObject (v : JValue) : bool :=
  match v with JArr _ | JObj _ => true | _ => false end.

Definition string_of_nat (n : nat) : string :=
  NilZero.string_of_uint (Nat.to_uint n).

(** [Array.prototype.join]. *)
Fixpoint join (sep : string) (l : list string) : string :=
  match l with
  | [] => ""
  | [s] => s
  | s :: l' => s ++ sep ++ join sep l'
  end.

(** [Array.prototype.map] with a callback that may throw. *)
Definition mapM {A B : Type} (f : A -> option B)
  : list A -> option (list B) :=
  fix mapM (l : list A) : option (list B) :=
    match l with
    | [] => Some []
    | x :: l' =>
        match f x with
        | Some y =>
            match mapM l' with
            | Some ys => Some (y :: ys)
            | None => None
            end
        | None => None
        end
    end.

(** [String(v)]; [None] is the TypeError raised on an object that owns a
    property [toString]: no JSON value can be called, and the inherited
    [valueOf] returns the object. An array renders its elements joined by a
    comma, [null] elements as nothing. *)
Fixpoint String_ (v : JValue) : option string :=
  match v with
  | JNull => Some "null"
  | JBool true => Some "true"
  | JBool false => Some "false"
  | JNum r => Some r
  | JStr s => Some s
  | JArr l =>
      option_map (join ",")
        (mapM (fun x => match x with JNull => Some "" | _ => String_ x end) l)
  | JObj o =>
      if existsb (String.eqb "toString") (map fst o) then None
      else Some "[object Object]"
  end.

(** [String(item || '')]. *)
Definition String_or_empty (item : JValue) : option string :=
  if truthy item then String_ item else Some "".

Fixpoint chars (s : string) : list string :=
  match s with
  | EmptyString => []
  | String c s' => String c EmptyString :: chars s'
  end.

Fixpoint indexed {A : Type} (i : nat) (l : list A) : list (string * A) :=
  match l with
  | [] => []
  | x :: l' => (string_of_nat i, x) :: indexed (S i) l'
  end.

(** [Object.entries(v)]; [None] is the TypeError raised on [null]. *)
Definition Object_entries (v : JValue) : option (list (string * JValue)) :=
  match v with
  | JNull => None
  | JBool _ | JNum _ => Some []
  | JStr s => Some (indexed 0 (map JStr (chars s)))
  | JArr l => Some (indexed 0 l)
  | JObj o => Some o
  end.

(** ** What a Record of the result holds *)

(** What a read [entry[key]] finds: a JSON value, or what the entry
    inherits from [Object.prototype], a built-in function or, under
    [__proto__], the prototype itself. *)
Inductive Cell : Type :=
| Data (v : JValue)
| Method (name : string)
| ObjectPrototype.

(** An object of the result. *)
Definition Row : Type := Properties Cell.

(** The keys under which [Object.prototype] holds a function. *)
Definition objectPrototypeFunctions : list string :=
  ["constructor"; "__defineGetter__"; "__defineSetter__"; "hasOwnProperty";
   "__lookupGetter__"; "__lookupSetter__"; "isPrototypeOf";
   "propertyIsEnumerable"; "toString"; "valueOf"; "toLocaleString"].

(** What an object that does not own [k] inherits under [k]. *)
Definition inherited (k : string) : option Cell :=
  if String.eqb k "__proto__" then Some ObjectPrototype
  else if existsb (String.eqb k) objectPrototypeFunctions then Some (Method k)
  else None.

(** [o[k]]: [None] stands for [undefined]. *)
Definition read (k : string) (o : Obj) : option Cell :=
  match get k o with
  | Some v => Some (Data v)
  | None => inherited k
  end.

(** [x || ''] for what a read finds: functions and objects are truthy. *)
Definition cell_or_empty (x : option Cell) : Cell :=
  match x with
  | Some (Data v) => if truthy v then Data v else Data (JStr "")
  | Some c => c
  | None => Data (JStr "")
  end.

(** ** flattenObject *)

(** [prefix ? `${prefix}_${key}` : key] *)
Definition newKeyOf (prefix key : string) : string :=
  if String.eqb prefix "" then key else prefix ++ "_" ++ key.

(** [value.forEach((item, index) => Object.assign(flattened,
    flattenObject(item, `${newKey}_${index}`)))]; [rec] is the recursive
    call. *)
Fixpoint flattenItems (rec : JValue -> string -> option Obj)
    (newKey : string) (items : list JValue) (index : nat) (flattened : Obj)
  : option Obj :=
  match items with
  | [] => Some flattened
  | item :: rest =>
      match rec item (newKey ++ "_" ++ string_of_nat index) with
      | Some sub => flattenItems rec newKey rest (S index) (assign flattened sub)
      | None => None
      end
  end.

(** [value.length > 0 && typeof value[0] === 'object'] *)
Definition startsWithObject (items : list JValue) : bool :=
  match items with
  | first :: _ => typeof_object first
  | [] => false
  end.

(** The body of the [for ... of Object.entries(obj)] loop, for one entry;
    [rec] is the recursive call. *)
Definition flattenEntry (rec : JValue -> string -> option Obj)
    (prefix : string) (flattened : Obj) (key : string) (value : JValue)
  : option Obj :=
  let newKey := newKeyOf prefix key in
  match value with
  | JNull => Some (set newKey (JStr "") flattened)
  | JObj _ => option_map (assign flattened) (rec value newKey)
  | JArr items =>
      if startsWithObject items
      then flattenItems rec newKey items 0 flattened
      else
        option_map
          (fun texts => set newKey (JStr (join ", " texts)) flattened)
          (mapM String_or_empty items)
  | JBool _ | JNum _ | JStr _ =>
      option_map (fun text => set newKey (JStr text) flattened)
        (String_ value)
  end.

(** The [for (const [key, value] of Object.entries(obj))] loop over the
    entries of an object. *)
Fixpoint flattenLoopWith (rec : JValue -> string -> option Obj)
    (prefix : string) (entries : list (string * JValue)) (flattened : Obj)
  : option Obj :=
  match entries with
  | [] => Some flattened
  | (key, value) :: rest =>
      match flattenEntry rec prefix flattened key value with
      | Some flattened' => flattenLoopWith rec prefix rest flattened'
      | None => None
      end
  end.

(** The same loop over the entries of an array: the keys are the indices
    from [index] on. *)
Fixpoint flattenIndexedWith (rec : JValue -> string -> option Obj)
    (prefix : string) (items : list JValue) (index : nat) (flattened : Obj)
  : option Obj :=
  match items with
  | [] => Some flattened
  | value :: rest =>
      match flattenEntry rec prefix flattened (string_of_nat index) value with
      | Some flattened' =>
          flattenIndexedWith rec prefix rest (S index) flattened'
      | None => None
      end
  end.

(** [flattenObject(obj, prefix = '')]; [None] is the TypeError that
    [Object.entries] throws on [null]. The entries of a string are its
    characters, which the loop body never descends into. *)
Fixpoint flattenObject (obj : JValue) (prefix : string) {struct obj}
  : option Obj :=
  match obj with
  | JNull => None
  | JBool _ | JNum _ => Some []
  | JStr s =>
      flattenLoopWith (fun _ _ => None) prefix
        (indexed 0 (map JStr (chars s))) []
  | JArr items => flattenIndexedWith flattenObject prefix items 0 []
  | JObj props => flattenLoopWith flattenObject prefix props []
  end.

(** The loop with the recursive call in place. *)
Definition flattenLoop : string -> list (string * JValue) -> Obj -> option Obj :=
  flattenLoopWith flattenObject.

(** ** normalizeData *)

(** What a block of statements yields: a value, or the exception thrown;
    [Beyond] when the embedding does not render it. *)
Inductive Attempt (A : Type) : Type :=
| Done (a : A)
| Thrown (message : string)
| Beyond.
Arguments Done {A} a.
Arguments Thrown {A} message.
Arguments Beyond {A}.

(** [String.prototype.toLowerCase] on code units up to U+00FF. *)
Definition lower_ascii (c : ascii) : ascii :=
  let n := nat_of_ascii c in
  if (((65 <=? n) && (n <=? 90))
      || ((192 <=? n) && (n <=? 222) && negb (n =? 215)))%nat
  then ascii_of_nat (n + 32) else c.

Fixpoint toLowerCase (s : string) : string :=
  match s with
  | EmptyString => EmptyString
  | String c s' => String (lower_ascii c) (toLowerCase s')
  end.

(** [row[index]]: the outer [None] is the TypeError of reading a property
    of [null], the inner [None] is [undefined]. *)
Definition getIndex (row : JValue) (index : nat) : option (option JValue) :=
  match row with
  | JNull => None
  | JBool _ | JNum _ => Some None
  | JStr s => Some (option_map JStr (nth_error (chars s) index))
  | JArr l => Some (nth_error l index)
  | JObj o => Some (get (string_of_nat index) o)
  end.

(** [x || ''] *)
Definition or_empty (x : option JValue) : JValue :=
  match x with
  | Some v => if truthy v then v else JStr ""
  | None => JStr ""
  end.

(** The write [obj[key] = cell] reaches the setter of [Object.prototype]
    with an object, which becomes the prototype of [obj]. *)
Definition replacesPrototype (key : string) (cell : JValue) (obj : Obj)
  : bool :=
  negb (hasOwn key obj) && String.eqb key "__proto__" && isObject cell.

(** [headers.forEach((header, index) => { obj[...] = row[index] || '' })]:
    the key is computed first, then the cell is read, then the property is
    written. *)
Fixpoint zipRow (headers : list JValue) (index : nat) (row : JValue)
    (obj : Obj) : Attempt Obj :=
  match headers with
  | [] => Done obj
  | header :: rest =>
      match String_ header with
      | Some name =>
          match getIndex row index with
          | Some x =>
              let key := toLowerCase name in
              let cell := or_empty x in
              if replacesPrototype key cell obj then Beyond
              else zipRow rest (S index) row (set key cell obj)
          | None => Thrown "TypeError"
          end
      | None => Thrown "TypeError"
      end
  end.

(** [Array.prototype.map] with a callback that may throw or be beyond the
    embedding. *)
Fixpoint mapA {A B : Type} (f : A -> Attempt B) (l : list A)
  : Attempt (list B) :=
  match l with
  | [] => Done []
  | x :: l' =>
      match f x with
      | Done y =>
          match mapA f l' with
          | Done ys => Done (y :: ys)
          | Thrown e => Thrown e
          | Beyond => Beyond
          end
      | Thrown e => Thrown e
      | Beyond => Beyond
      end
  end.

(** The callback of the last [map]: [{ value: String(entry) }] or
    [flattenObject(entry)]. *)
Definition normalizeEntry (entry : JValue) : Attempt Obj :=
  if negb (typeof_object entry) || is_null entry
  then
    match String_ entry with
    | Some text => Done [("value", JStr text)]
    | None => Thrown "TypeError"
    end
  else
    match flattenObject entry "" with
    | Some flattened => Done flattened
    | None => Thrown "TypeError"
    end.

Definition normalizeData (data : JValue) : Attempt (list Obj) :=
  let data := match data with JArr l => l | _ => [data] end in
  match data with
  | JArr headers :: rows => mapA (fun row => zipRow headers 0 row []) rows
  | _ => mapA normalizeEntry data
  end.

(** ** JSON.stringify *)

Definition hex_digit (n : nat) : ascii :=
  if (n <? 10)%nat then ascii_of_nat (48 + n) else ascii_of_nat (87 + n).

(** The escape of one code unit inside a JSON string literal. *)
Definition quote_ascii (c : ascii) : string :=
  let n := nat_of_ascii c in
  if (n =? 8)%nat then "\b"
  else if (n =? 9)%nat then "\t"
  else if (n =? 10)%nat then "\n"
  else if (n =? 12)%nat then "\f"
  else if (n =? 13)%nat then "\r"
  else if (n =? 34)%nat then String "\" (String (ascii_of_nat 34) EmptyString)
  else if (n =? 92)%nat then "\\"
  else if (n <? 32)%nat then
    "\u00" ++ String (hex_digit (n / 16)) (String (hex_digit (n mod 16)) "")
  else String c EmptyString.

Fixpoint quote_body (s : string) : string :=
  match s with
  | EmptyString => EmptyString
  | String c s' => quote_ascii c ++ quote_body s'
  end.

Definition dquote : string := String (ascii_of_nat 34) EmptyString.

Definition quoteJSON (s : string) : string := dquote ++ quote_body s ++ dquote.

(** A number that is not finite serialises as [null]. *)
Definition finite (repr : string) : bool :=
  negb (String.eqb repr "Infinity" || String.eqb repr "-Infinity"
        || String.eqb repr "NaN").

(** [JSON.stringify(v)] *)
Fixpoint JSON_stringify (v : JValue) : string :=
  match v with
  | JNull => "null"
  | JBool true => "true"
  | JBool false => "false"
  | JNum r => if finite r then r else "null"
  | JStr s => quoteJSON s
  | JArr l => "[" ++ join "," (map JSON_stringify l) ++ "]"
  | JObj o =>
      "{" ++ join "," (map (fun kv => quoteJSON (fst kv) ++ ":"
                                       ++ JSON_stringify (snd kv)) o) ++ "}"
  end.

(** ** removeDuplicates and mergeEntries *)

(** A [Set] of strings: its elements in insertion order. *)
Definition StrSet : Type := list string.

Definition has (s : StrSet) (k : string) : bool := existsb (String.eqb k) s.

Definition add (s : StrSet) (k : string) : StrSet :=
  if has s k then s else (s ++ [k])%list.

(** [entries.filter(entry => ...)] threading the [seen] set. *)
Fixpoint removeDuplicates_from (seen : StrSet) (entries : list Obj)
  : list Obj :=
  match entries with
  | [] => []
  | entry :: rest =>
      let key := JSON_stringify (JObj entry) in
      if has seen key then removeDuplicates_from seen rest
      else entry :: removeDuplicates_from (add seen key) rest
  end.

Definition removeDuplicates (entries : list Obj) : list Obj :=
  removeDuplicates_from [] entries.

(** [uniqueEntries.forEach(entry => Object.keys(entry).forEach(key =>
    allKeys.add(key)))] *)
Definition allKeysOf (uniqueEntries : list Obj) : StrSet :=
  fold_left (fun allKeys entry => fold_left add (keys entry) allKeys)
    uniqueEntries [].

(** [for (const key of allKeys) normalized[key] = entry[key] || ''] *)
Definition padEntry (allKeys : StrSet) (entry : Obj) : Row :=
  fold_left
    (fun normalized key => set key (cell_or_empty (read key entry)) normalized)
    allKeys [].

Definition mergeEntries (entries : list Obj) : list Row :=
  let uniqueEntries := removeDuplicates entries in
  let allKeys := allKeysOf uniqueEntries in
  map (padEntry allKeys) uniqueEntries.

(** ** Regular expressions

    A backtracking matcher with the priorities of the JavaScript engine:
    alternatives left to right, greedy or lazy repetition, an iteration of a
    repetition that consumes nothing is rejected. *)

Inductive regex : Type :=
| Chr (p : ascii -> bool)
| Eps
| Seq (r1 r2 : regex)
| Alt (r1 r2 : regex)
| Star (greedy : bool) (r : regex)
| Group (n : nat) (r : regex)
| Bol
| Eol.

Definition Plus (r : regex) : regex := Seq r (Star true r).
Definition Opt (r : regex) : regex := Alt r Eps.

(** Captured groups, the latest first. *)
Definition Caps : Type := list (nat * string).

Fixpoint capture (n : nat) (caps : Caps) : string :=
  match caps with
  | [] => ""
  | (m, s) :: caps' => if (m =? n)%nat then s else capture n caps'
  end.

Definition MatchResult : Type := (nat * Caps)%type.
Definition Cont : Type := nat -> string -> Caps -> option MatchResult.

Fixpoint star_loop (m : nat -> string -> Caps -> Cont -> option MatchResult)
    (greedy : bool) (fuel : nat) (pos : nat) (rest : string) (caps : Caps)
    (k : Cont) : option MatchResult :=
  match fuel with
  | O => k pos rest caps
  | S fuel' =>
      let again (_ : unit) :=
        m pos rest caps
          (fun pos' rest' caps' =>
             if (pos' =? pos)%nat then None
             else star_loop m greedy fuel' pos' rest' caps' k) in
      if greedy then
        match again tt with
        | Some x => Some x
        | None => k pos rest caps
        end
      else
        match k pos rest caps with
        | Some x => Some x
        | None => again tt
        end
  end.

(** [rmatch r pos rest caps k]: match [r] at index [pos], where [rest] is the
    input from [pos] on, then continue with [k]. *)
Fixpoint rmatch (r : regex) (pos : nat) (rest : string) (caps : Caps)
    (k : Cont) : option MatchResult :=
  match r with
  | Chr p =>
      match rest with
      | String c rest' => if p c then k (S pos) rest' caps else None
      | EmptyString => None
      end
  | Eps => k pos rest caps
  | Seq r1 r2 =>
      rmatch r1 pos rest caps
        (fun pos' rest' caps' => rmatch r2 pos' rest' caps' k)
  | Alt r1 r2 =>
      match rmatch r1 pos rest caps k with
      | Some x => Some x
      | None => rmatch r2 pos rest caps k
      end
  | Star greedy r' =>
      star_loop (rmatch r') greedy (S (String.length rest)) pos rest caps k
  | Group n r' =>
      rmatch r' pos rest caps
        (fun pos' rest' caps' =>
           k pos' rest' ((n, substring 0 (pos' - pos) rest) :: caps'))
  | Bol => if (pos =? 0)%nat then k pos rest caps else None
  | Eol =>
      match rest with
      | EmptyString => k pos rest caps
      | String _ _ => None
      end
  end.

(** A match that starts exactly at [pos]: its end index and its groups. *)
Definition match_at (r : regex) (pos : nat) (rest : string)
  : option MatchResult :=
  rmatch r pos rest [] (fun pos' _ caps' => Some (pos', caps')).

(** [RegExp.prototype.exec] without the [g] flag: the leftmost match. *)
Fixpoint exec_from (r : regex) (pos : nat) (rest : string)
  : option MatchResult :=
  match match_at r pos rest with
  | Some x => Some x
  | None =>
      match rest with
      | String _ rest' => exec_from r (S pos) rest'
      | EmptyString => None
      end
  end.

(** [str.match(r)] for [r] without the [g] flag: the groups of the leftmost
    match. *)
Definition match_ (r : regex) (s : string) : option Caps :=
  option_map snd (exec_from r 0 s).

(** [str.match(r) || []] for [r] with the [g] flag: every match, left to
    right; [skip] counts the characters of the current match still to pass. *)
Fixpoint matchAll_from (r : regex) (pos : nat) (rest : string) (skip : nat)
  : list string :=
  match (match skip with O => match_at r pos rest | S _ => None end) with
  | Some (e, _) =>
      substring 0 (e - pos) rest ::
      match rest with
      | String _ rest' => matchAll_from r (S pos) rest' (e - pos - 1)
      | EmptyString => []
      end
  | None =>
      match rest with
      | String _ rest' => matchAll_from r (S pos) rest' (pred skip)
      | EmptyString => []
      end
  end.

Definition matchAll (r : regex) (s : string) : list string :=
  matchAll_from r 0 s 0.

(** [str.replace(r, by)] for [r] with the [g] flag; [by] builds the
    replacement from the groups. *)
Fixpoint replace_from (r : regex) (by_ : Caps -> string) (pos : nat)
    (rest : string) (skip : nat) : string :=
  match (match skip with O => match_at r pos rest | S _ => None end) with
  | Some (e, caps) =>
      by_ caps ++
      match rest with
      | String c rest' =>
          let tail := replace_from r by_ (S pos) rest' (e - pos - 1) in
          if (e =? pos)%nat then String c tail else tail
      | EmptyString => ""
      end
  | None =>
      match rest with
      | String c rest' =>
          let tail := replace_from r by_ (S pos) rest' (pred skip) in
          match skip with O => String c tail | S _ => tail end
      | EmptyString => ""
      end
  end.

Definition replace (r : regex) (by_ : Caps -> string) (s : string) : string :=
  replace_from r by_ 0 s 0.

(** [str.split(r)]; [cur] is the piece since the end of the last separator. *)
Fixpoint split_from (r : regex) (pos : nat) (rest : string) (skip : nat)
    (cur : string) : list string :=
  match rest with
  | EmptyString => [cur]
  | String c rest' =>
      match skip with
      | S skip' => split_from r (S pos) rest' skip' cur
      | O =>
          match match_at r pos rest with
          | Some (e, _) =>
              if (e =? pos)%nat then
                if String.eqb cur "" then
                  split_from r (S pos) rest' 0 (String c "")
                else cur :: split_from r (S pos) rest' 0 (String c "")
              else cur :: split_from r (S pos) rest' (e - pos - 1) ""
          | None => split_from r (S pos) rest' 0 (cur ++ String c "")
          end
      end
  end.

Definition split (r : regex) (s : string) : list string :=
  match s with
  | EmptyString =>
      match match_at r 0 "" with Some _ => [] | None => [""] end
  | _ => split_from r 0 s 0 ""
  end.

(** ** Character classes and trimming *)

Definition one_of (l : list nat) (c : ascii) : bool :=
  existsb (fun n => (code c =? n)%nat) l.

Definition none_of (l : list nat) (c : ascii) : bool := negb (one_of l c).

(** [\s]: tab, line feed, vertical tab, form feed, carriage return, space
    and no-break space. *)
Definition is_space : ascii -> bool := one_of [9; 10; 11; 12; 13; 32; 160].

(** [\w] *)
Definition is_word (c : ascii) : bool :=
  let n := code c in
  (((48 <=? n) && (n <=? 57)) || ((65 <=? n) && (n <=? 90))
   || ((97 <=? n) && (n <=? 122)) || (n =? 95))%nat.

(** [.]: anything but a line terminator. *)
Definition is_dot : ascii -> bool := none_of [10; 13].

Fixpoint trimStart (s : string) : string :=
  match s with
  | String c s' => if is_space c then trimStart s' else s
  | EmptyString => EmptyString
  end.

Fixpoint trimEnd (s : string) : string :=
  match s with
  | String c s' =>
      let t := trimEnd s' in
      if is_space c && String.eqb t "" then "" else String c t
  | EmptyString => EmptyString
  end.

Definition trim (s : string) : string := trimEnd (trimStart s).

(** A string in a condition: true unless empty. *)
Definition nonempty (s : string) : bool := negb (String.eqb s "").

(** ** extractKeyValuePairs *)

Definition CR : regex := Chr (is_code 13).
Definition LF : regex := Chr (is_code 10).

(** [/(?:\r?\n\s*\r?\n|\{|\}|\[|\])+/] *)
Definition blockSeparator : regex :=
  Plus (Alt (Seq (Opt CR) (Seq LF (Seq (Star true (Chr is_space))
                                       (Seq (Opt CR) LF))))
       (Alt (Chr (is_code 123)) (Alt (Chr (is_code 125))
       (Alt (Chr (is_code 91)) (Chr (is_code 93)))))).

(** [/[\n;]+/] *)
Definition lineSeparator : regex := Plus (Chr (one_of [10; 59])).

(** [/^([^:=]+)[:=]\s*(.+)$/] *)
Definition keyValuePattern : regex :=
  Seq Bol
 (Seq (Group 1 (Plus (Chr (none_of [58; 61]))))
 (Seq (Chr (one_of [58; 61]))
 (Seq (Star true (Chr is_space))
 (Seq (Group 2 (Plus (Chr is_dot))) Eol)))).

Definition always (s : string) : Caps -> string := fun _ => s.

(** [key.trim().replace(/['Q]/g, '').replace(/[\s_]+/g, '_')
       .replace(/[^\w\s-]/g, '').toLowerCase()], where Q is the
    double-quote character. *)
Definition cleanKeyOf (key : string) : string :=
  toLowerCase
    (replace (Chr (fun c => negb (is_word c || is_space c || is_code 45 c))) (always "")
       (replace (Plus (Chr (fun c => is_space c || is_code 95 c))) (always "_")
          (replace (Chr (one_of [39; 34])) (always "") (trim key)))).

(** [value.trim().replace(/^[Q']|[Q']$/g, '').replace(/\s+/g, ' ')], where
    Q is the double-quote character. *)
Definition cleanValueOf (value : string) : string :=
  replace (Plus (Chr is_space)) (always " ")
    (replace (Alt (Seq Bol (Chr (one_of [34; 39])))
                  (Seq (Chr (one_of [34; 39])) Eol)) (always "")
       (trim value)).

(** The body of [for (const line of lines)]: the entry under construction
    and the [hasValidPair] flag. *)
Definition processLine (st : Obj * bool) (line : string) : Obj * bool :=
  match match_ keyValuePattern line with
  | Some caps =>
      let key := capture 1 caps in
      let value := capture 2 caps in
      let cleanKey := cleanKeyOf key in
      let cleanValue := cleanValueOf value in
      if nonempty cleanKey && nonempty cleanValue
      then (set cleanKey (JStr cleanValue) (fst st), true)
      else st
  | None => st
  end.

Definition linesOf (block : string) : list string :=
  filter (fun line => nonempty (trim line)) (split lineSeparator block).

Definition blocksOf (text : string) : list string :=
  filter (fun block => nonempty (trim block)) (split blockSeparator text).

(** What one block adds to [entries]. *)
Definition processBlock (block : string) : list Obj :=
  let '(currentEntry, hasValidPair) :=
    fold_left processLine (linesOf block) ([], false) in
  if hasValidPair then [currentEntry] else [].

Definition extractKeyValuePairs (text : string) : list Obj :=
  flat_map processBlock (blocksOf text).

Definition nl : string := String (ascii_of_nat 10) EmptyString.

(** ** Numbers

    The Number value of a decimal literal, and its rendering by
    [Number::toString], in exact integer arithmetic. *)

(** A double that is not negative: [DFinite m e] is [m * 2 ^ e], with [m]
    below [2 ^ 53] and [e] from [-1074] to [971]. *)
Inductive Double : Type :=
| DZero
| DFinite (m e : Z)
| DInfinity.

(** The double nearest to [num / den], ties to the even one; both numbers
    are positive. *)
Definition roundRatio (num den : Z) : Double :=
  (let l := Z.log2 num - Z.log2 den in
   let reaches :=
     if 0 <=? l then den * 2 ^ l <=? num else den <=? num * 2 ^ (- l) in
   let p := if reaches then l else l - 1 in
   let e := Z.max (p - 52) (-1074) in
   let '(n', d') :=
     if 0 <=? e then (num, den * 2 ^ e) else (num * 2 ^ (- e), den) in
   let q := n' / d' in
   let r := n' mod d' in
   let m := if (d' <? 2 * r) || ((d' =? 2 * r) && Z.odd q) then q + 1 else q in
   let '(m, e) := if m =? 2 ^ 53 then (2 ^ 52, e + 1) else (m, e) in
   if m =? 0 then DZero
   else if 971 <? e then DInfinity
   else DFinite m e)%Z.

(** [m * 10 ^ t] as a ratio. *)
Definition scaled (m t : Z) : Z * Z :=
  (if 0 <=? t then (m * 10 ^ t, 1) else (m, 10 ^ (- t)))%Z.

(** The double nearest to [m * 10 ^ t], for [m] positive; far outside the
    range of the doubles the answer needs no division. *)
Definition roundDecimal (m t : Z) : Double :=
  (if 310 <? t then DInfinity
   else if t + Z.log2 m <? -1100 then DZero
   else let '(num, den) := scaled m t in roundRatio num den)%Z.

Definition Double_eqb (x y : Double) : bool :=
  match x, y with
  | DZero, DZero => true
  | DInfinity, DInfinity => true
  | DFinite m e, DFinite m' e' => ((m =? m') && (e =? e'))%Z
  | _, _ => false
  end.

(** [xn / xd < 10 ^ n] *)
Definition below_pow10 (xn xd n : Z) : bool :=
  (if 0 <=? n then xn <? xd * 10 ^ n else xn * 10 ^ (- n) <? xd)%Z.

(** The least [n'] from [n] on with [xn / xd < 10 ^ n']. *)
Fixpoint decimalPoint (fuel : nat) (xn xd n : Z) : Z :=
  match fuel with
  | O => n
  | S fuel' =>
      if below_pow10 xn xd n then n else decimalPoint fuel' xn xd (n + 1)%Z
  end.

(** Among the decimals [s * 10 ^ (n - k)] that round to the double [x],
    which is [xn / xd], the nearest to it (the even one of two equally
    near), if there is one. *)
Definition digitsOfLength (x : Double) (xn xd n k : Z) : option Z :=
  (let t := n - k in
   let lo := if 0 <=? t then xn / (xd * 10 ^ t) else (xn * 10 ^ (- t)) / xd in
   let hi := lo + 1 in
   let rounds s := Double_eqb (roundDecimal s t) x in
   match rounds lo, rounds hi with
   | true, false => Some lo
   | false, true => Some hi
   | false, false => None
   | true, true =>
       let '(mn, md) := scaled (2 * lo + 1) t in
       match (2 * xn * md) ?= (mn * xd) with
       | Lt => Some lo
       | Gt => Some hi
       | Eq => Some (if Z.even lo then lo else hi)
       end
   end)%Z.

(** The shortest such decimal: its digits [s] and their number, from [k]
    digits on. *)
Fixpoint shortestDigits (fuel : nat) (x : Double) (xn xd n k : Z) : Z * Z :=
  match fuel with
  | O => (0, k)%Z
  | S fuel' =>
      match digitsOfLength x xn xd n k with
      | Some s => (s, k)
      | None => shortestDigits fuel' x xn xd n (k + 1)%Z
      end
  end.

Fixpoint zeros (n : nat) : string :=
  match n with
  | O => ""
  | S n' => String "0" (zeros n')
  end.

(** The text that [Number::toString] gives the digits [ds] and the
    exponent [n], the value being [0.ds * 10 ^ n]. *)
Definition formatNumber (ds : string) (n : Z) : string :=
  (let k := Z.of_nat (String.length ds) in
   if (k <=? n) && (n <=? 21) then ds ++ zeros (Z.to_nat (n - k))
   else if (0 <? n) && (n <=? 21) then
     substring 0 (Z.to_nat n) ds ++ "."
     ++ substring (Z.to_nat n) (Z.to_nat (k - n)) ds
   else if (-6 <? n) && (n <=? 0) then "0." ++ zeros (Z.to_nat (- n)) ++ ds
   else
     let exponent :=
       (if n - 1 <? 0 then "-" else "+") ++ string_of_Z (Z.abs (n - 1)) in
     match ds with
     | String d EmptyString => ds ++ "e" ++ exponent
     | String d rest => String d ("." ++ rest) ++ "e" ++ exponent
     | EmptyString => ""
     end)%Z.

(** [String(x)] for a double that is not negative. *)
Definition renderDouble (x : Double) : string :=
  match x with
  | DZero => "0"
  | DInfinity => "Infinity"
  | DFinite m e =>
      (let '(xn, xd) := if 0 <=? e then (m * 2 ^ e, 1) else (m, 2 ^ (- e)) in
       let t := Z.log2 xn - Z.log2 xd - 1 in
       let start := (t * (if 0 <=? t then 30102 else 30103)) / 100000 in
       let n := decimalPoint 8 xn xd start in
       let '(s, k) := shortestDigits 17 x xn xd n 1 in
       if s =? 10 ^ k then formatNumber "1" (n + 1)
       else formatNumber (string_of_Z s) n)%Z
  end.

(** [String(x)] for the Number value [x] of the literal with the sign
    [negative], the digits [ds] before and after the point taken together,
    and the decimal exponent [t] of the last digit. Minus zero renders
    as zero. *)
Definition renderLiteral (negative : bool) (ds : string) (t : Z) : string :=
  let m := digitsValue ds 0 in
  if (m =? 0)%Z then "0"
  else
    let text := renderDouble (roundDecimal m t) in
    if negative && negb (String.eqb text "0") then String "-" text else text.

(** ** JSON.parse

    [Parsed v]: the text is JSON and denotes [v]. [SyntaxError]: the parse
    throws. [Unmodelled]: the text has an escape above U+00FF, which this
    embedding does not render. *)

Inductive ParseResult (A : Type) : Type :=
| Parsed (a : A)
| SyntaxError
| Unmodelled.
Arguments Parsed {A} a.
Arguments SyntaxError {A}.
Arguments Unmodelled {A}.

Definition bindP {A B : Type} (x : ParseResult A) (f : A -> ParseResult B)
  : ParseResult B :=
  match x with
  | Parsed a => f a
  | SyntaxError => SyntaxError
  | Unmodelled => Unmodelled
  end.

Notation "'let*' x ':=' c 'in' k" := (bindP c (fun x => k))
  (at level 10, x pattern, c at level 100, k at level 200).

Definition is_ws : ascii -> bool := one_of [32; 9; 10; 13].

Fixpoint skip_ws (s : string) : string :=
  match s with
  | String c s' => if is_ws c then skip_ws s' else s
  | EmptyString => EmptyString
  end.

Definition hex_value (c : ascii) : option nat :=
  let n := code c in
  if ((48 <=? n) && (n <=? 57))%nat then Some (n - 48)
  else if ((65 <=? n) && (n <=? 70))%nat then Some (n - 55)
  else if ((97 <=? n) && (n <=? 102))%nat then Some (n - 87)
  else None.

(** The characters of a string literal after its opening quote, and the
    text after its closing quote. *)
Fixpoint parse_string_body (s : string) : ParseResult (string * string) :=
  match s with
  | EmptyString => SyntaxError
  | String c s' =>
      if is_code 34 c then Parsed ("", s')
      else if is_code 92 c then
        match s' with
        | EmptyString => SyntaxError
        | String e s'' =>
            let plain (d : nat) :=
              let* (body, rest) := parse_string_body s'' in
              Parsed (String (ascii_of_nat d) body, rest) in
            if is_code 34 e then plain 34
            else if is_code 92 e then plain 92
            else if is_code 47 e then plain 47
            else if is_code 98 e then plain 8
            else if is_code 102 e then plain 12
            else if is_code 110 e then plain 10
            else if is_code 114 e then plain 13
            else if is_code 116 e then plain 9
            else if is_code 117 e then
              match s'' with
              | String h1 (String h2 (String h3 (String h4 s4))) =>
                  match hex_value h1, hex_value h2, hex_value h3, hex_value h4
                  with
                  | Some a, Some b, Some c', Some d =>
                      if ((a =? 0) && (b =? 0))%nat then
                        let* (body, rest) := parse_string_body s4 in
                        Parsed (String (ascii_of_nat (16 * c' + d)) body, rest)
                      else
                        (* the rest of the literal decides between a syntax
                           error and a string that is not rendered *)
                        let* (body, rest) := parse_string_body s4 in
                        Unmodelled
                  | _, _, _, _ => SyntaxError
                  end
              | _ => SyntaxError
              end
            else SyntaxError
        end
      else if (code c <? 32)%nat then SyntaxError
      else
        let* (body, rest) := parse_string_body s' in
        Parsed (String c body, rest)
  end.

(** The leading digits of a text, and what follows them. *)
Fixpoint take_digits (s : string) : string * string :=
  match s with
  | String c s' =>
      if is_digit c then
        let '(ds, rest) := take_digits s' in (String c ds, rest)
      else ("", s)
  | EmptyString => ("", "")
  end.

(** The fraction of a number literal: a point and at least one digit, or
    nothing. *)
Definition parse_fraction (s : string) : ParseResult (string * string) :=
  match s with
  | String c s' =>
      if is_code 46 c then
        match take_digits s' with
        | (EmptyString, _) => SyntaxError
        | (ds, rest) => Parsed (ds, rest)
        end
      else Parsed ("", s)
  | EmptyString => Parsed ("", s)
  end.

(** The exponent of a number literal: the letter e, an optional sign and at
    least one digit, or nothing. *)
Definition parse_exponent (s : string) : ParseResult (Z * string) :=
  match s with
  | String c s' =>
      if one_of [101; 69] c then
        let '(negative, s1) :=
          match s' with
          | String sign s'' =>
              if is_code 45 sign then (true, s'')
              else if is_code 43 sign then (false, s'')
              else (false, s')
          | EmptyString => (false, s')
          end in
        match take_digits s1 with
        | (EmptyString, _) => SyntaxError
        | (ds, rest) =>
            let e := digitsValue ds 0 in
            Parsed (if negative then (- e)%Z else e, rest)
        end
      else Parsed (0%Z, s)
  | EmptyString => Parsed (0%Z, s)
  end.

(** A number literal: an optional minus sign, then 0 or digits that do not
    start with 0, then an optional fraction and an optional exponent. Its
    value is carried by its rendering. *)
Definition parse_number (s : string) : ParseResult (JValue * string) :=
  let '(negative, s1) :=
    match s with
    | String c s' => if is_code 45 c then (true, s') else (false, s)
    | EmptyString => (false, s)
    end in
  let '(ds, rest) := take_digits s1 in
  match ds with
  | EmptyString => SyntaxError
  | String d ds' =>
      if is_code 48 d && nonempty ds' then
        (* a leading zero ends the number: what follows is unexpected *)
        SyntaxError
      else
        let* (fraction, rest1) := parse_fraction rest in
        let* (exponent, rest2) := parse_exponent rest1 in
        Parsed (JNum (renderLiteral negative (ds ++ fraction)
                        (exponent - Z.of_nat (String.length fraction))),
                rest2)
  end.

Fixpoint expect (word : string) (s : string) : option string :=
  match word, s with
  | EmptyString, _ => Some s
  | String w word', String c s' =>
      if Ascii.eqb w c then expect word' s' else None
  | String _ _, EmptyString => None
  end.

(** [parse_value]: a value, and the text after it. [parse_elements]: the
    elements of an array after its opening bracket, up to and including the
    closing bracket. [parse_members]: the members of an object after its
    opening brace, up to and including the closing brace; each member
    defines a property. [fuel] bounds the nesting and the number of
    elements; twice the length of the text is enough, and running out is
    reported as [Unmodelled]. *)
Fixpoint parse_value (fuel : nat) (s : string)
  : ParseResult (JValue * string) :=
  match fuel with
  | O => Unmodelled
  | S fuel' =>
      match s with
      | EmptyString => SyntaxError
      | String c s' =>
          if is_code 34 c then
            let* (body, rest) := parse_string_body s' in
            Parsed (JStr body, rest)
          else if is_code 91 c then
            match skip_ws s' with
            | String c' rest =>
                if is_code 93 c' then Parsed (JArr [], rest)
                else
                  let* (l, rest') := parse_elements fuel' (skip_ws s') in
                  Parsed (JArr l, rest')
            | EmptyString => SyntaxError
            end
          else if is_code 123 c then
            match skip_ws s' with
            | String c' rest =>
                if is_code 125 c' then Parsed (JObj [], rest)
                else
                  let* (o, rest') := parse_members fuel' (skip_ws s') [] in
                  Parsed (JObj o, rest')
            | EmptyString => SyntaxError
            end
          else if is_code 116 c then
            match expect "true" s with
            | Some rest => Parsed (JBool true, rest)
            | None => SyntaxError
            end
          else if is_code 102 c then
            match expect "false" s with
            | Some rest => Parsed (JBool false, rest)
            | None => SyntaxError
            end
          else if is_code 110 c then
            match expect "null" s with
            | Some rest => Parsed (JNull, rest)
            | None => SyntaxError
            end
          else parse_number s
      end
  end

with parse_elements (fuel : nat) (s : string)
  : ParseResult (list JValue * string) :=
  match fuel with
  | O => Unmodelled
  | S fuel' =>
      let* (v, rest) := parse_value fuel' s in
      match skip_ws rest with
      | String c rest' =>
          if is_code 93 c then Parsed ([v], rest')
          else if is_code 44 c then
            let* (l, rest'') := parse_elements fuel' (skip_ws rest') in
            Parsed (v :: l, rest'')
          else SyntaxError
      | EmptyString => SyntaxError
      end
  end

with parse_members (fuel : nat) (s : string) (o : Obj)
  : ParseResult (Obj * string) :=
  match fuel with
  | O => Unmodelled
  | S fuel' =>
      match s with
      | String q s' =>
          if is_code 34 q then
            let* (key, rest) := parse_string_body s' in
            match skip_ws rest with
            | String c rest' =>
                if is_code 58 c then
                  let* (v, rest'') := parse_value fuel' (skip_ws rest') in
                  let o' := define key v o in
                  match skip_ws rest'' with
                  | String c' rest3 =>
                      if is_code 125 c' then Parsed (o', rest3)
                      else if is_code 44 c' then
                        parse_members fuel' (skip_ws rest3) o'
                      else SyntaxError
                  | EmptyString => SyntaxError
                  end
                else SyntaxError
            | EmptyString => SyntaxError
            end
          else SyntaxError
      | EmptyString => SyntaxError
      end
  end.

(** [JSON.parse(text)] *)
Definition JSON_parse (text : string) : ParseResult JValue :=
  let* (v, rest) := parse_value (2 * String.length text + 2) (skip_ws text) in
  match skip_ws rest with
  | EmptyString => Parsed v
  | String _ _ => SyntaxError
  end.

(** ** findJsonObjects *)

Definition not_brace : ascii -> bool := none_of [123; 125].
Definition not_bracket : ascii -> bool := none_of [91; 93].

(** The pattern [jsonRegex]: a brace span that may hold brace spans without
    braces inside, or a bracket span that may hold bracket spans matched
    lazily on one line. *)
Definition jsonRegex : regex :=
  Group 1
    (Alt
       (Seq (Chr (is_code 123))
          (Seq (Star true
                  (Alt (Chr not_brace)
                       (Seq (Chr (is_code 123))
                          (Seq (Star true (Chr not_brace))
                               (Chr (is_code 125))))))
               (Chr (is_code 125))))
       (Seq (Chr (is_code 91))
          (Seq (Star true
                  (Alt (Chr not_bracket)
                       (Seq (Chr (is_code 91))
                          (Seq (Star false (Chr is_dot))
                               (Chr (is_code 93))))))
               (Chr (is_code 93))))).

(** A class of code units above U+00FF: no character of a modelled text
    belongs to it. *)
Definition beyond_latin1 : ascii -> bool := fun _ => false.

(** The chain of seven [replace] calls applied to a candidate span. *)
Definition cleanFragment (fragment : string) : string :=
  let s1 := replace (Chr beyond_latin1) (always "") fragment in
  let s2 := replace (Chr beyond_latin1) (always "'") s1 in
  let s3 := replace (Chr beyond_latin1) (always dquote) s2 in
  let s4 :=
    replace (Seq LF (Seq (Star true (Chr is_space))
                         (Group 1 (Chr (one_of [34; 125; 92])))))
      (capture 1) s3 in
  let s5 :=
    replace (Seq (Group 1 (Chr (one_of [123; 91])))
                 (Seq (Chr (is_code 44))
                      (Seq (Star true (Chr is_space))
                           (Seq LF (Star true (Chr is_space))))))
      (capture 1) s4 in
  let s6 := replace (Seq (Chr (is_code 92)) (Chr (is_code 110))) (always " ") s5 in
  replace (Seq (Chr (is_code 92)) (Chr (is_code 114))) (always " ") s6.

(** The [for (const match of potentialMatches)] loop; a span that does not
    parse is skipped. [None]: a span is beyond the embedding. *)
Fixpoint collectParsed (potentialMatches : list string) (results : list JValue)
  : option (list JValue) :=
  match potentialMatches with
  | [] => Some results
  | fragment :: rest =>
      match JSON_parse (cleanFragment fragment) with
      | Parsed (JArr items) => collectParsed rest (results ++ items)%list
      | Parsed parsed => collectParsed rest (results ++ [parsed])%list
      | SyntaxError => collectParsed rest results
      | Unmodelled => None
      end
  end.

(** [findJsonObjects(text)]; it never throws. *)
Definition findJsonObjects (text : string) : option (list JValue) :=
  collectParsed (matchAll jsonRegex text) [].

(** ** parseDocument *)

(** The argument [input]: a text, or a document together with what the
    external decoding step yields for it ([None] when that step fails). *)
Inductive Input : Type :=
| Text (text : string)
| Document (rawText : option string).

(** How the returned promise settles. *)
Inductive Outcome : Type :=
| Resolved (records : list Row)
| Rejected (message : string)
| NotModelled.

Definition noEntriesMessage : string :=
  "No valid data entries found in the document".

Definition remediationMessage : string :=
  "Could not parse the document. Please ensure:" ++ nl
  ++ "- The document contains valid data (JSON or key-value pairs)" ++ nl
  ++ "- Each entry is properly formatted" ++ nl
  ++ "- There are no special characters or formatting issues".

(** Both extractors on [text], appended to an empty [entries]. *)
Definition extractEntries (text : string) : Attempt (list Obj) :=
  match findJsonObjects text with
  | Some jsonEntries =>
      let kvEntries := extractKeyValuePairs text in
      match jsonEntries with
      | [] => Done kvEntries
      | _ :: _ =>
          match normalizeData (JArr jsonEntries) with
          | Done normalized => Done (normalized ++ kvEntries)%list
          | Thrown e => Thrown e
          | Beyond => Beyond
          end
      end
  | None => Beyond
  end.

(** The inner [try] block: [normalizeData(JSON.parse(text))]. *)
Definition parseStrictly (text : string) : Attempt (list Obj) :=
  match JSON_parse text with
  | Parsed jsonData => normalizeData jsonData
  | SyntaxError => Thrown "SyntaxError"
  | Unmodelled => Beyond
  end.

(** The statements of the outer [try] block up to the emptiness test. *)
Definition gatherEntries (input : Input) (isWordDoc : bool)
  : Attempt (list Obj) :=
  if isWordDoc then
    match input with
    | Document (Some text) => extractEntries text
    | Document None => Thrown "decoding failed"
    | Text _ => Thrown "TypeError"
    end
  else
    match input with
    | Text text =>
        match parseStrictly text with
        | Done entries => Done entries
        | Thrown _ => extractEntries text
        | Beyond => Beyond
        end
    | Document _ => Thrown "TypeError"
    end.

Definition parseDocument (input : Input) (isWordDoc : bool) : Outcome :=
  let body : Attempt (list Row) :=
    match gatherEntries input isWordDoc with
    | Done [] => Thrown noEntriesMessage
    | Done entries => Done (mergeEntries entries)
    | Thrown e => Thrown e
    | Beyond => Beyond
    end in
  match body with
  | Done records => Resolved records
  | Thrown _ => Rejected remediationMessage
  | Beyond => NotModelled
  end.

(** * Vocabulary of the properties *)

Local Open Scope list_scope.

(** ** Induction on values, through the nested lists *)

Section JValue_induction.
Variable P : JValue -> Prop.
Hypothesis Hnull : P JNull.
Hypothesis Hbool : forall b, P (JBool b).
Hypothesis Hnum : forall r, P (JNum r).
Hypothesis Hstr : forall s, P (JStr s).
Hypothesis Harr : forall l, Forall P l -> P (JArr l).
Hypothesis Hobj : forall o, Forall (fun kv => P (snd kv)) o -> P (JObj o).

Fixpoint JValue_nested_ind (v : JValue) : P v :=
  match v with
  | JNull => Hnull
  | JBool b => Hbool b
  | JNum r => Hnum r
  | JStr s => Hstr s
  | JArr l =>
      Harr l
        ((fix all (l : list JValue) : Forall P l :=
            match l with
            | [] => Forall_nil P
            | x :: l' => Forall_cons x (JValue_nested_ind x) (all l')
            end) l)
  | JObj o =>
      Hobj o
        ((fix all (o : list (string * JValue))
            : Forall (fun kv => P (snd kv)) o :=
            match o with
            | [] => Forall_nil _
            | kv :: o' =>
                Forall_cons kv (JValue_nested_ind (snd kv)) (all o')
            end) o)
  end.
End JValue_induction.

(** ** Records *)

Definition isStr (v : JValue) : bool :=
  match v with JStr _ => true | _ => false end.

(** A Record: every value is a string. *)
Definition isRecord (o : Obj) : bool := forallb (fun kv => isStr (snd kv)) o.

(** What a Record of the result holds is a string. *)
Definition isString (c : Cell) : bool :=
  match c with Data (JStr _) => true | _ => false end.

(** No key occurs twice. *)
Fixpoint distinctKeys {V : Type} (o : Properties V) : bool :=
  match o with
  | [] => true
  | (k, _) :: o' => negb (existsb (String.eqb k) (keys o')) && distinctKeys o'
  end.

(** The key is no array index. *)
Definition plainKey (k : string) : bool :=
  match arrayIndex k with Some _ => false | None => true end.

(** The key [k] may come before the key [k'] in an enumeration: an array
    index before a larger one or before a key that is none, a key that is
    no array index before another such key. *)
Definition mayPrecede (k k' : string) : bool :=
  match arrayIndex k, arrayIndex k' with
  | Some i, Some j => (i <? j)%Z
  | Some _, None => true
  | None, Some _ => false
  | None, None => true
  end.

(** The keys are in enumeration order. *)
Fixpoint inOrder (ks : list string) : bool :=
  match ks with
  | [] => true
  | k :: ks' => forallb (mayPrecede k) ks' && inOrder ks'
  end.

(** The properties are in enumeration order. *)
Definition enumerated {V : Type} (o : Properties V) : bool :=
  inOrder (keys o).

(** What the code builds by writes from the empty object: distinct keys in
    enumeration order, none of them [__proto__]. *)
Definition built {V : Type} (o : Properties V) : Prop :=
  NoDup (keys o) /\ enumerated o = true /\ ~ In "__proto__"%string (keys o).

(** The key is named like a member of [Object.prototype]. *)
Definition inheritedName (k : string) : bool :=
  match inherited k with Some _ => true | None => false end.

(** [null], a boolean, a number or a string. *)
Definition isScalar (v : JValue) : bool :=
  match v with
  | JArr _ | JObj _ => false
  | _ => true
  end.

(** The string representation of a value that renders. *)
Definition textOf (v : JValue) : string :=
  match String_ v with Some text => text | None => "" end.

(** [String(item || '')] for an item that renders, or is falsy. *)
Definition textOrNothing (item : JValue) : string :=
  if truthy item then textOf item else "".

(** The first element of the sequence is [null]. *)
Definition startsWithNull (items : list JValue) : bool :=
  match items with
  | JNull :: _ => true
  | _ => false
  end.

(** What every result of the flattener satisfies: distinct keys, string
    values. *)
Definition flatRecord (r : Obj) : Prop :=
  NoDup (keys r) /\ isRecord r = true.

(** A single-level Record as the code builds it. *)
Definition builtRecord (r : Obj) : Prop := built r /\ isRecord r = true.

Definition returnsFlat (v : JValue) : Prop :=
  forall prefix r, flattenObject v prefix = Some r -> builtRecord r.

Definition entryKeepsFlat (v : JValue) : Prop :=
  forall prefix flattened key r,
    builtRecord flattened ->
    flattenEntry flattenObject prefix flattened key v = Some r ->
    builtRecord r.

(** [String(v)] does not throw. *)
Definition renders (v : JValue) : bool :=
  match String_ v with Some _ => true | None => false end.

(** The loop body does not throw on [value]. Where it hands the elements
    of a sequence to the flattener, because the first of them is
    object-typed, none of them is [null], and the loop body does not throw
    on the fields of any of them; where it joins the elements of a
    sequence, each of them renders. *)
Fixpoint entryOk (value : JValue) : bool :=
  match value with
  | JObj props => forallb (fun kv => entryOk (snd kv)) props
  | JArr items =>
      if startsWithObject items then
        forallb
          (fun item =>
             match item with
             | JNull => false
             | JArr l => forallb entryOk l
             | JObj props => forallb (fun kv => entryOk (snd kv)) props
             | _ => true
             end) items
      else forallb renders items
  | _ => true
  end.

(** The flattener does not throw on [obj]: [obj] is not [null], and the
    loop body does not throw on any of its fields. *)
Definition flattens (obj : JValue) : bool :=
  match obj with
  | JNull => false
  | JArr l => forallb entryOk l
  | JObj props => forallb (fun kv => entryOk (snd kv)) props
  | _ => true
  end.

Definition isSome {A : Type} (x : option A) : bool :=
  match x with Some _ => true | None => false end.

Definition objectAgrees (v : JValue) : Prop :=
  forall prefix, isSome (flattenObject v prefix) = flattens v.

Definition entryAgrees (v : JValue) : Prop :=
  forall prefix flattened key,
    isSome (flattenEntry flattenObject prefix flattened key v) = entryOk v.

Definition nested_example : JValue :=
  JObj [("user", JObj [("name", JStr "Alice");
                       ("tags", JArr [JStr "x"; JStr "y"])])].

(** ** Deduplication *)

(** The identity that [removeDuplicates] compares: [JSON.stringify(entry)]. *)
Definition serialise (entry : Obj) : string := JSON_stringify (JObj entry).

(** One member of a serialised object. *)
Definition member (kv : string * JValue) : string :=
  (quoteJSON (fst kv) ++ ":" ++ JSON_stringify (snd kv))%string.

(** What follows a member: a comma and the other members, or the closing
    brace. *)
Definition membersTail (l : list (string * JValue)) (t : string) : string :=
  match l with
  | [] => String "}" t
  | _ :: _ => String "," (join "," (map member l) ++ String "}" t)
  end.

(** [earlier] holds an entry with the serialisation of [entry]. *)
Definition duplicates (earlier : list Obj) (entry : Obj) : bool :=
  existsb (fun e => String.eqb (serialise e) (serialise entry)) earlier.

(** The first occurrences, in the words of the claim: an entry is kept
    unless one of the entries before it is its duplicate. *)
Fixpoint firstOccurrences (earlier entries : list Obj) : list Obj :=
  match entries with
  | [] => []
  | e :: rest =>
      (if duplicates earlier e then [] else [e])
      ++ firstOccurrences (earlier ++ [e]) rest
  end.

Definition schema_example : list Obj :=
  [[("name", JStr "Alice")]; [("age", JStr "30"); ("name", JStr "Bob")];
   [("name", JStr "Alice")]].

(** ** The table branch of normalizeData *)







(** ** Key/value blocks *)



(** The entry that the lines of a block build up. *)
Definition entryOf (block : string) : Obj :=
  fst (fold_left processLine (linesOf block) ([], false)).

(** ** Runs of parseDocument *)

(** The text that the run reads: the decoded text of a document, or the
    raw text. *)
Definition inputText (input : Input) (isWordDoc : bool) : option string :=
  match input, isWordDoc with
  | Document (Some text), true => Some text
  | Text text, false => Some text
  | _, _ => None
  end.

(** The strict parse of a raw text, and its normalisation, return at least
    one Record: the run returns these without consulting the extractors. *)
Definition parsesStrictly (input : Input) (isWordDoc : bool) : bool :=
  match input, isWordDoc with
  | Text text, false =>
      match parseStrictly text with
      | Done (_ :: _) => true
      | _ => false
      end
  | _, _ => false
  end.

(** [data.length > 0 && Array.isArray(data[0])], after a value that is not
    an array has been wrapped. *)
Definition tabular (data : JValue) : bool :=
  match (match data with JArr l => l | _ => [data] end) with
  | JArr _ :: _ => true
  | _ => false
  end.

(** Some call of [normalizeData] in this run takes the table branch. *)
Definition tableBranch (input : Input) (isWordDoc : bool) : bool :=
  let viaExtractors (text : string) :=
    match findJsonObjects text with
    | Some jsonEntries => tabular (JArr jsonEntries)
    | None => false
    end in
  if isWordDoc then
    match input with
    | Document (Some text) => viaExtractors text
    | _ => false
    end
  else
    match input with
    | Text text =>
        match JSON_parse text with
        | Parsed jsonData =>
            tabular jsonData
            || match normalizeData jsonData with
               | Thrown _ => viaExtractors text
               | _ => false
               end
        | SyntaxError => viaExtractors text
        | Unmodelled => false
        end
    | Document _ => false
    end.

(** The number of lines of a message. *)
Fixpoint lineCount (s : string) : nat :=
  match s with
  | EmptyString => 1
  | String c s' => if is_code 10 c then S (lineCount s') else lineCount s'
  end.

(** ** Texts and matches *)

(** Every character of [s] satisfies [p]. *)
Fixpoint allChars (p : ascii -> bool) (s : string) : bool :=
  match s with
  | EmptyString => true
  | String c s' => p c && allChars p s'
  end.

(** [rest'] is what is left of [rest] after [consumed], read from [pos]. *)
Definition advances (pos : nat) (rest : string) (pos' : nat) (rest' : string)
  : Prop :=
  exists consumed : string,
    rest = (consumed ++ rest')%string /\ pos' = pos + String.length consumed.

(** A matcher hands to its continuation a later position of the same text. *)
Definition callsContinuation
    (m : nat -> string -> Caps -> Cont -> option MatchResult) : Prop :=
  forall pos rest caps k x,
    m pos rest caps k = Some x ->
    exists pos' rest' caps',
      k pos' rest' caps' = Some x /\ advances pos rest pos' rest'.

(** No opening brace or bracket. *)
Definition noOpening : ascii -> bool := none_of [123; 91].

(** No colon and no equals sign. *)
Definition noSeparator : ascii -> bool := none_of [58; 61].

(** No opening brace or bracket, no colon, no equals sign. *)
Definition plainChar (c : ascii) : bool := noOpening c && noSeparator c.

(** The characters of [s] that satisfy [p]. *)
Fixpoint keepChars (p : ascii -> bool) (s : string) : string :=
  match s with
  | EmptyString => EmptyString
  | String c s' => if p c then String c (keepChars p s') else keepChars p s'
  end.

(** The number of leading characters of [s] that satisfy [p]. *)
Fixpoint span (p : ascii -> bool) (s : string) : nat :=
  match s with
  | String c s' => if p c then S (span p s') else 0
  | EmptyString => 0
  end.

(** [s] with every maximal run of characters that satisfy [p] replaced by
    [t]; [inrun] tells that the run has already begun. *)
Fixpoint collapseRuns (p : ascii -> bool) (t : string) (inrun : bool)
    (s : string) : string :=
  match s with
  | EmptyString => EmptyString
  | String c s' =>
      if p c then ((if inrun then "" else t) ++ collapseRuns p t true s')%string
      else String c (collapseRuns p t false s')
  end.

(** A lower-case letter, a digit, an underscore or a hyphen. *)
Definition keyChar (c : ascii) : bool :=
  let n := code c in
  (((97 <=? n) && (n <=? 122)) || ((48 <=? n) && (n <=? 57))
   || (n =? 95) || (n =? 45))%nat.

(** A plain space, or no white space at all. *)
Definition valueChar (c : ascii) : bool := negb (is_space c) || is_code 32 c.

(** No two adjacent characters of [s] satisfy [p]; [prev] tells whether the
    character before [s] does. *)
Fixpoint noDouble (p : ascii -> bool) (prev : bool) (s : string) : bool :=
  match s with
  | EmptyString => true
  | String c s' => negb (prev && p c) && noDouble p (p c) s'
  end.

(** A key as the extractor cleans it: not empty, made of lower-case
    letters, digits, underscores and hyphens. *)
Definition cleanKey (k : string) : bool := nonempty k && allChars keyChar k.

(** A value as the extractor cleans it: not empty, its only white space
    single plain spaces. *)
Definition cleanValue (v : JValue) : bool :=
  match v with
  | JStr s => nonempty s && allChars valueChar s && noDouble is_space false s
  | _ => false
  end.

(** Every field of the entry is clean. *)
Definition cleanEntry (o : Obj) : Prop :=
  Forall (fun kv => cleanKey (fst kv) = true /\ cleanValue (snd kv) = true) o.

(** The cleaned pair of a line, when the line is a valid pair. *)
Definition pairOfLine (line : string) : list (string * JValue) :=
  match match_ keyValuePattern line with
  | Some caps =>
      let cleanKey := cleanKeyOf (capture 1 caps) in
      let cleanValue := cleanValueOf (capture 2 caps) in
      if nonempty cleanKey && nonempty cleanValue
      then [(cleanKey, JStr cleanValue)] else []
  | None => []
  end.

(** The cleaned pairs of the valid lines of a block, in line order. *)
Definition pairsOf (block : string) : list (string * JValue) :=
  flat_map pairOfLine (linesOf block).

(** * Properties *)

(** Case analysis on an optional result that a hypothesis says is there. *)
Ltac some_or_absurd H x E :=
  match type of H with
  | context [match ?c with Some _ => _ | None => _ end] =>
      destruct c as [x|] eqn:E; [|discriminate H]
  end.

(** ** Objects *)

Lemma existsb_eqb_In (k : string) (l : list string) :
  existsb (String.eqb k) l = true <-> In k l.
Proof.
  rewrite existsb_exists. split.
  - intros [x [Hin Heq]]. apply String.eqb_eq in Heq. now subst.
  - intros Hin. exists k. split; [assumption | apply String.eqb_refl].
Qed.

Section Objects.
Context {V : Type}.

Lemma hasOwn_In (k : string) (o : Properties V) : hasOwn k o = true <-> In k (keys o).
Proof. apply existsb_eqb_In. Qed.

Lemma hasOwn_false (k : string) (o : Properties V) :
  hasOwn k o = false <-> ~ In k (keys o).
Proof.
  rewrite <- hasOwn_In. destruct (hasOwn k o); split; intros H;
    congruence || (exfalso; now apply H).
Qed.

Lemma distinctKeys_NoDup (o : Properties V) : distinctKeys o = true <-> NoDup (keys o).
Proof.
  induction o as [|[k v] o IH]; simpl.
  - split; [constructor | reflexivity].
  - rewrite andb_true_iff, negb_true_iff, IH. split.
    + intros [Hk Hnd]. constructor; [|assumption].
      intros Hin. apply existsb_eqb_In in Hin. congruence.
    + intros Hnd. inversion Hnd as [|? ? Hk Hnd']; subst. split; [|assumption].
      destruct (existsb (String.eqb k) (keys o)) eqn:E; [|reflexivity].
      apply existsb_eqb_In in E. contradiction.
Qed.

Lemma keys_update (k : string) (v : V) (o : Properties V) :
  keys (update k v o) = keys o.
Proof.
  unfold keys. induction o as [|[k' v'] o IH]; cbn [update map];
    [reflexivity|].
  destruct (String.eqb k k'); cbn [map fst]; [reflexivity|]. now rewrite IH.
Qed.

(** Where [insertIndex] puts the new property. *)
Lemma insertIndex_split (i : Z) (k : string) (v : V) (o : Properties V) :
  exists o1 o2, o = o1 ++ o2 /\ insertIndex i k v o = o1 ++ (k, v) :: o2.
Proof.
  induction o as [|[k' v'] o [o1 [o2 [Ho Hi]]]]; cbn.
  - now exists [], [].
  - destruct (arrayIndex k') as [j|]; [destruct (j <? i)%Z|].
    + exists ((k', v') :: o1), o2. cbn. now rewrite <- Ho, Hi.
    + now exists [], ((k', v') :: o).
    + now exists [], ((k', v') :: o).
Qed.

(** What [define] does to the list of properties: it changes a value in
    place, or inserts the new property somewhere. *)
Lemma define_split (k : string) (v : V) (o : Properties V) :
  (In k (keys o) /\ define k v o = update k v o) \/
  (~ In k (keys o) /\
   exists o1 o2, o = o1 ++ o2 /\ define k v o = o1 ++ (k, v) :: o2).
Proof.
  unfold define. destruct (hasOwn k o) eqn:Hown.
  - left. split; [now apply hasOwn_In | reflexivity].
  - right. split; [now apply hasOwn_false|].
    destruct (arrayIndex k) as [i|]; [apply insertIndex_split|].
    exists o, []. now rewrite app_nil_r.
Qed.

(** What a write does to the list of properties: nothing, a change of a
    value in place, or the insertion of the new property. *)
Lemma set_split (k : string) (v : V) (o : Properties V) :
  (~ In k (keys o) /\ k = "__proto__"%string /\ set k v o = o) \/
  (In k (keys o) /\ set k v o = update k v o) \/
  (~ In k (keys o) /\ k <> "__proto__"%string /\
   exists o1 o2, o = o1 ++ o2 /\ set k v o = o1 ++ (k, v) :: o2).
Proof.
  unfold set. destruct (hasOwn k o) eqn:Hown; cbn [negb andb].
  - right. left. split; [now apply hasOwn_In|].
    unfold define. now rewrite Hown.
  - destruct (String.eqb_spec k "__proto__") as [Heq|Hne].
    + left. split; [now apply hasOwn_false | auto].
    + right. right. destruct (define_split k v o) as [[Hin _]|[Hnin H]].
      * apply hasOwn_In in Hin. congruence.
      * auto.
Qed.

Lemma keys_app (o1 o2 : Properties V) : keys (o1 ++ o2) = keys o1 ++ keys o2.
Proof. apply map_app. Qed.

Lemma In_keys_set (k : string) (v : V) (o : Properties V) (x : string) :
  In x (keys (set k v o)) ->  In x (keys o) \/ x = k.
Proof.
  destruct (set_split k v o) as [[_ [_ ->]]|[[_ ->]|[_ [_ [o1 [o2 [-> ->]]]]]]].
  - auto.
  - rewrite keys_update. auto.
  - rewrite !keys_app. cbn. rewrite !in_app_iff. cbn. intuition.
Qed.

Lemma In_keys_set_old (k : string) (v : V) (o : Properties V) (x : string) :
  In x (keys o) -> In x (keys (set k v o)).
Proof.
  destruct (set_split k v o) as [[_ [_ ->]]|[[_ ->]|[_ [_ [o1 [o2 [-> ->]]]]]]].
  - auto.
  - now rewrite keys_update.
  - rewrite !keys_app. cbn. rewrite !in_app_iff. cbn. intuition.
Qed.

Lemma In_keys_set_new (k : string) (v : V) (o : Properties V) :
  k <> "__proto__"%string -> In k (keys (set k v o)).
Proof.
  intros Hk.
  destruct (set_split k v o) as [[_ [? _]]|[[Hin ->]|[_ [_ [o1 [o2 [-> ->]]]]]]].
  - contradiction.
  - now rewrite keys_update.
  - rewrite keys_app. cbn. rewrite in_app_iff. cbn. auto.
Qed.

Lemma NoDup_insert {A : Type} (l1 l2 : list A) (x : A) :
  NoDup (l1 ++ l2) -> ~ In x (l1 ++ l2) -> NoDup (l1 ++ x :: l2).
Proof.
  intros Hnd Hx. apply NoDup_Add with (a := x) (l := l1 ++ l2).
  - apply Add_app.
  - auto.
Qed.

Lemma NoDup_keys_set (k : string) (v : V) (o : Properties V) :
  NoDup (keys o) -> NoDup (keys (set k v o)).
Proof.
  intros Hnd.
  destruct (set_split k v o)
    as [[_ [_ ->]]|[[_ ->]|[Hnin [_ [o1 [o2 [-> ->]]]]]]].
  - assumption.
  - now rewrite keys_update.
  - rewrite keys_app in *. cbn. now apply NoDup_insert.
Qed.

Lemma get_app (k : string) (o1 o2 : Properties V) :
  get k (o1 ++ o2) = match get k o1 with Some v => Some v | None => get k o2 end.
Proof.
  induction o1 as [|[k' v'] o1 IH]; cbn; [reflexivity|].
  now destruct (String.eqb k k').
Qed.

Lemma get_None (k : string) (o : Properties V) : get k o = None <-> ~ In k (keys o).
Proof.
  induction o as [|[k' v'] o IH]; cbn; [tauto|].
  destruct (String.eqb_spec k k') as [->|Hne].
  - split; [discriminate | intros H; exfalso; apply H; now left].
  - rewrite IH. split; [intros H [Heq|Hin]; congruence || auto | auto].
Qed.

Lemma get_Some_In (k : string) (o : Properties V) (v : V) :
  get k o = Some v -> In k (keys o).
Proof.
  induction o as [|[k' v'] o IH]; cbn; [discriminate|].
  destruct (String.eqb_spec k k') as [->|Hne]; [now left|].
  intros H. right. now apply IH.
Qed.

Lemma get_update_same (k : string) (v : V) (o : Properties V) :
  In k (keys o) -> get k (update k v o) = Some v.
Proof.
  induction o as [|[k' v'] o IH]; cbn; [contradiction|].
  destruct (String.eqb_spec k k') as [->|Hne]; cbn.
  - now rewrite String.eqb_refl.
  - intros [Heq|Hin]; [congruence|].
    destruct (String.eqb_spec k k'); [congruence | now apply IH].
Qed.

Lemma get_update_other (k k' : string) (v : V) (o : Properties V) :
  k' <> k -> get k' (update k v o) = get k' o.
Proof.
  intros Hne. induction o as [|[k0 v0] o IH]; cbn; [reflexivity|].
  destruct (String.eqb_spec k k0) as [->|Hne0]; cbn.
  - now destruct (String.eqb_spec k' k0).
  - now rewrite IH.
Qed.

(** A write that defines or changes the property is read back. *)
Lemma get_set_same (k : string) (v : V) (o : Properties V) :
  k <> "__proto__"%string -> get k (set k v o) = Some v.
Proof.
  intros Hk.
  destruct (set_split k v o)
    as [[_ [? _]]|[[Hin ->]|[Hnin [_ [o1 [o2 [-> ->]]]]]]].
  - contradiction.
  - now apply get_update_same.
  - rewrite get_app. cbn. rewrite String.eqb_refl.
    rewrite keys_app, in_app_iff in Hnin.
    destruct (get k o1) eqn:E; [|reflexivity].
    exfalso. apply Hnin. left. eapply get_Some_In, E.
Qed.

Lemma get_set_other (k k' : string) (v : V) (o : Properties V) :
  k' <> k -> get k' (set k v o) = get k' o.
Proof.
  intros Hne.
  destruct (set_split k v o)
    as [[_ [_ ->]]|[[_ ->]|[_ [_ [o1 [o2 [-> ->]]]]]]].
  - reflexivity.
  - now apply get_update_other.
  - rewrite !get_app. cbn.
    destruct (String.eqb_spec k' k); [congruence | reflexivity].
Qed.

(** A write of [__proto__] to an object that does not own it changes
    nothing. *)
Lemma set_proto (v : V) (o : Properties V) :
  ~ In "__proto__"%string (keys o) -> set "__proto__" v o = o.
Proof.
  intros Hnin. unfold set. apply hasOwn_false in Hnin. now rewrite Hnin.
Qed.

(** *** Enumeration order *)

Lemma set_fresh (k : string) (v : V) (o : Properties V) :
  ~ In k (keys o) -> k <> "__proto__"%string -> plainKey k = true ->
  set k v o = o ++ [(k, v)].
Proof.
  intros Hnin Hk Hplain. unfold set, define, plainKey in *.
  apply hasOwn_false in Hnin. rewrite Hnin. cbn [negb andb].
  destruct (String.eqb_spec k "__proto__"); [contradiction|].
  now destruct (arrayIndex k).
Qed.

(** An array index has one numeral. *)
Lemma arrayIndex_numeral (k : string) (i : Z) :
  arrayIndex k = Some i -> k = string_of_Z i.
Proof.
  unfold arrayIndex.
  destruct (String.length k <=? 10)%nat; [|discriminate].
  destruct (String.eqb_spec (string_of_Z (digitsValue k 0)) k) as [Heq|];
    [|discriminate].
  destruct (digitsValue k 0 <? 4294967295)%Z; [|discriminate].
  cbn. intros H. injection H as <-. now symmetry.
Qed.

Lemma arrayIndex_inj (k k' : string) (i : Z) :
  arrayIndex k = Some i -> arrayIndex k' = Some i -> k = k'.
Proof.
  intros H H'. apply arrayIndex_numeral in H, H'. congruence.
Qed.

Lemma mayPrecede_plain (k k' : string) :
  plainKey k' = true -> mayPrecede k k' = true.
Proof.
  unfold plainKey, mayPrecede. destruct (arrayIndex k'); [discriminate|].
  now destruct (arrayIndex k).
Qed.

Lemma inOrder_app (ks1 ks2 : list string) :
  inOrder (ks1 ++ ks2) = true <->
  inOrder ks1 = true /\ inOrder ks2 = true /\
  forall a b, In a ks1 -> In b ks2 -> mayPrecede a b = true.
Proof.
  induction ks1 as [|k ks1 IH]; cbn [app inOrder].
  - split; [intros H; repeat split; auto; intros a b []|tauto].
  - rewrite !andb_true_iff, forallb_app, andb_true_iff, IH.
    rewrite !forallb_forall. split.
    + intros [[H1 H2] [H3 [H4 H5]]]. repeat split; auto.
      intros a b [<-|Ha] Hb; auto.
    + intros [[H1 H2] [H3 H4]]. repeat split; auto.
      * intros b Hb. apply H4; [now left | exact Hb].
      * intros a b Ha Hb. apply H4; [now right | exact Hb].
Qed.

Lemma inOrder_snoc (ks : list string) (k : string) :
  inOrder (ks ++ [k]) = true <->
  inOrder ks = true /\ forall a, In a ks -> mayPrecede a k = true.
Proof.
  rewrite inOrder_app. cbn [inOrder forallb andb]. split.
  - intros [H1 [_ H2]]. split; [exact H1|]. intros a Ha. apply H2; cbn; auto.
  - intros [H1 H2]. repeat split; auto. intros a b Ha [<-|[]]. auto.
Qed.

(** A new array index among keys that all may precede it goes last. *)
Lemma insertIndex_last (i : Z) (k : string) (v : V) (o : Properties V) :
  arrayIndex k = Some i ->
  (forall a, In a (keys o) -> mayPrecede a k = true) ->
  insertIndex i k v o = o ++ [(k, v)].
Proof.
  intros Hk. induction o as [|[k' v'] o IH]; cbn [insertIndex app];
    intros Hall; [reflexivity|].
  pose proof (Hall k' (or_introl eq_refl)) as Hk'.
  unfold mayPrecede in Hk'. rewrite Hk in Hk'.
  destruct (arrayIndex k') as [j|]; [|discriminate].
  rewrite Hk'. f_equal. apply IH. intros a Ha. apply Hall. now right.
Qed.

(** A write of a new key that may come last in the enumeration appends the
    property. *)
Lemma set_last (k : string) (v : V) (o : Properties V) :
  ~ In k (keys o) -> k <> "__proto__"%string ->
  (forall a, In a (keys o) -> mayPrecede a k = true) ->
  set k v o = o ++ [(k, v)].
Proof.
  intros Hnin Hk Hall. destruct (arrayIndex k) as [i|] eqn:Hi.
  - unfold set, define. apply hasOwn_false in Hnin. rewrite Hnin.
    cbn [negb andb]. destruct (String.eqb_spec k "__proto__"); [contradiction|].
    rewrite Hi. now apply insertIndex_last.
  - apply set_fresh; auto. unfold plainKey. now rewrite Hi.
Qed.

Lemma keys_cons (k : string) (v : V) (o : Properties V) :
  keys ((k, v) :: o) = k :: keys o.
Proof. reflexivity. Qed.

Lemma enumerated_insertIndex (i : Z) (k : string) (v : V) (o : Properties V) :
  arrayIndex k = Some i -> ~ In k (keys o) -> enumerated o = true ->
  enumerated (insertIndex i k v o) = true.
Proof.
  intros Hk. unfold enumerated.
  induction o as [|[k' v'] o IH]; cbn [insertIndex]; intros Hnin Ho;
    [reflexivity|].
  rewrite keys_cons in Hnin, Ho. cbn [inOrder] in Ho.
  apply andb_true_iff in Ho as [Hhead Ho]. rewrite forallb_forall in Hhead.
  assert (Hne : k' <> k) by (intros ->; apply Hnin; now left).
  assert (Hnin' : ~ In k (keys o)) by (intros H; apply Hnin; now right).
  assert (Hfront : (forall x, In x (keys o) -> mayPrecede k x = true) ->
                   mayPrecede k k' = true ->
                   inOrder (keys ((k, v) :: (k', v') :: o)) = true).
  { intros H1 H2. rewrite !keys_cons. cbn [inOrder forallb].
    rewrite H2, Ho. cbn [andb]. rewrite !andb_true_r.
    apply andb_true_iff. split; apply forallb_forall; auto. }
  destruct (arrayIndex k') as [j|] eqn:Hj; [destruct (j <? i)%Z eqn:Hlt|].
  - rewrite keys_cons. cbn [inOrder]. rewrite IH by assumption.
    rewrite andb_true_r. apply forallb_forall. intros x Hx.
    destruct (insertIndex_split i k v o) as [o1 [o2 [Heq Hins]]].
    rewrite Hins, keys_app, keys_cons in Hx.
    apply in_app_or in Hx as [Hx|[<-|Hx]].
    + apply Hhead. rewrite Heq, keys_app. apply in_or_app. now left.
    + unfold mayPrecede. now rewrite Hj, Hk.
    + apply Hhead. rewrite Heq, keys_app. apply in_or_app. now right.
  - apply Hfront.
    + intros x Hx. specialize (Hhead x Hx). unfold mayPrecede in *.
      rewrite Hj in Hhead. rewrite Hk.
      destruct (arrayIndex x) as [jx|]; [|reflexivity].
      apply Z.ltb_lt in Hhead. apply Z.ltb_ge in Hlt. apply Z.ltb_lt. lia.
    + unfold mayPrecede. rewrite Hk, Hj. apply Z.ltb_ge in Hlt.
      apply Z.ltb_lt. assert (j <> i)%Z; [|lia].
      intros ->. apply Hne. eapply arrayIndex_inj; eassumption.
  - apply Hfront.
    + intros x Hx. specialize (Hhead x Hx). unfold mayPrecede in *.
      rewrite Hj in Hhead. rewrite Hk.
      destruct (arrayIndex x) as [jx|]; [discriminate | reflexivity].
    + unfold mayPrecede. now rewrite Hk, Hj.
Qed.

Lemma enumerated_set (k : string) (v : V) (o : Properties V) :
  enumerated o = true -> enumerated (set k v o) = true.
Proof.
  intros Ho. unfold set, define.
  destruct (hasOwn k o) eqn:Hown; cbn [negb andb].
  - unfold enumerated. now rewrite keys_update.
  - destruct (String.eqb k "__proto__"); [assumption|].
    apply hasOwn_false in Hown.
    destruct (arrayIndex k) as [i|] eqn:Hi.
    + now apply enumerated_insertIndex.
    + unfold enumerated. rewrite keys_app. cbn [keys map fst].
      apply inOrder_snoc.
      split; [exact Ho|]. intros a _. apply mayPrecede_plain.
      unfold plainKey. now rewrite Hi.
Qed.

Lemma proto_set (k : string) (v : V) (o : Properties V) :
  ~ In "__proto__"%string (keys o) ->
  ~ In "__proto__"%string (keys (set k v o)).
Proof.
  intros Ho Hin. destruct (String.eqb_spec k "__proto__") as [->|Hne].
  - rewrite set_proto in Hin by assumption. auto.
  - apply In_keys_set in Hin as [Hin|Heq]; [auto|]. congruence.
Qed.

Lemma built_nil : built ([] : Properties V).
Proof. repeat split; [constructor | intros []]. Qed.

Lemma built_set (k : string) (v : V) (o : Properties V) :
  built o -> built (set k v o).
Proof.
  intros [Hnd [Hen Hproto]]. repeat split.
  - now apply NoDup_keys_set.
  - now apply enumerated_set.
  - now apply proto_set.
Qed.


End Objects.

(** ** Records *)

Lemma isRecord_app (o1 o2 : Obj) :
  isRecord (o1 ++ o2) = isRecord o1 && isRecord o2.
Proof. apply forallb_app. Qed.

Lemma isRecord_cons (k : string) (v : JValue) (o : Obj) :
  isRecord ((k, v) :: o) = isStr v && isRecord o.
Proof. reflexivity. Qed.

Lemma isRecord_update (k : string) (v : JValue) (o : Obj) :
  isRecord o = true -> isStr v = true -> isRecord (update k v o) = true.
Proof.
  unfold isRecord. induction o as [|[k' v'] o IH]; cbn; intros Ho Hv;
    [reflexivity|].
  apply andb_true_iff in Ho as [Hv' Ho].
  destruct (String.eqb k k'); cbn.
  - now rewrite Hv, Ho.
  - now rewrite Hv', IH.
Qed.

Lemma isRecord_set (k : string) (v : JValue) (o : Obj) :
  isRecord o = true -> isStr v = true -> isRecord (set k v o) = true.
Proof.
  intros Ho Hv.
  destruct (set_split k v o) as [[_ [_ ->]]|[[_ ->]|[_ [_ [o1 [o2 [-> ->]]]]]]].
  - assumption.
  - now apply isRecord_update.
  - rewrite isRecord_app in Ho. apply andb_true_iff in Ho as [H1 H2].
    now rewrite isRecord_app, isRecord_cons, H1, H2, Hv.
Qed.

Lemma built_assign (source target : Obj) :
  built target -> built (assign target source).
Proof.
  unfold assign. revert target.
  induction source as [|[k v] source IH]; cbn; intros target Ht;
    [assumption|]. apply IH. now apply built_set.
Qed.

Lemma isRecord_assign (source target : Obj) :
  isRecord target = true -> isRecord source = true ->
  isRecord (assign target source) = true.
Proof.
  unfold assign. revert target.
  induction source as [|[k v] source IH]; simpl; intros target Ht Hs.
  - assumption.
  - apply andb_true_iff in Hs as [Hv Hs].
    apply IH; [|assumption]. now apply isRecord_set.
Qed.

Lemma isRecord_get (e : Obj) (k : string) :
  isRecord e = true ->
  match get k e with Some v => isStr v = true | None => True end.
Proof.
  unfold isRecord. induction e as [|[k' v] e IH]; cbn; intros H; [exact I|].
  apply andb_true_iff in H as [Hv He].
  destruct (String.eqb k k'); [exact Hv | exact (IH He)].
Qed.

Lemma or_empty_string (x : option JValue) :
  match x with Some v => isStr v = true | None => True end ->
  or_empty x = match x with Some v => v | None => JStr "" end.
Proof.
  destruct x as [v|]; [|reflexivity]. destruct v; try discriminate.
  intros _. cbn. now destruct (String.eqb_spec s "") as [->|].
Qed.

(** ** flattenObject *)

Lemma flattenIndexedWith_indexed rec prefix items index flattened :
  flattenIndexedWith rec prefix items index flattened
  = flattenLoopWith rec prefix (indexed index items) flattened.
Proof.
  revert index flattened.
  induction items as [|value rest IH]; intros index flattened; [reflexivity|].
  cbn [flattenIndexedWith flattenLoopWith indexed].
  destruct (flattenEntry rec prefix flattened (string_of_nat index) value);
    auto.
Qed.

Lemma flattenEntry_string rec prefix flattened key s :
  flattenEntry rec prefix flattened key (JStr s)
  = Some (set (newKeyOf prefix key) (JStr s) flattened).
Proof. reflexivity. Qed.

Lemma flattenLoopWith_strings rec1 rec2 prefix (l : list string) index
    flattened :
  flattenLoopWith rec1 prefix (indexed index (map JStr l)) flattened
  = flattenLoopWith rec2 prefix (indexed index (map JStr l)) flattened.
Proof.
  revert index flattened.
  induction l as [|s l IH]; intros index flattened; [reflexivity|].
  cbn [map indexed flattenLoopWith]. rewrite !flattenEntry_string. apply IH.
Qed.

(** The shape of the source: one loop over [Object.entries(obj)]. *)
Lemma flattenObject_entries (obj : JValue) (prefix : string) :
  flattenObject obj prefix
  = match Object_entries obj with
    | Some entries => flattenLoop prefix entries []
    | None => None
    end.
Proof.
  destruct obj; cbn [flattenObject Object_entries]; try reflexivity.
  - apply flattenLoopWith_strings.
  - apply flattenIndexedWith_indexed.
Qed.

Lemma builtRecord_nil : builtRecord [].
Proof. split; [apply built_nil | reflexivity]. Qed.

Lemma builtRecord_set k s r : builtRecord r -> builtRecord (set k (JStr s) r).
Proof.
  intros [Hb Hrec]. split.
  - now apply built_set.
  - now apply isRecord_set.
Qed.

Lemma builtRecord_assign target source :
  builtRecord target -> builtRecord source ->
  builtRecord (assign target source).
Proof.
  intros [Hb Hrec] [_ Hrec']. split.
  - now apply built_assign.
  - now apply isRecord_assign.
Qed.

Lemma builtRecord_flat r : builtRecord r -> flatRecord r.
Proof. intros [[Hnd _] Hrec]. now split. Qed.

Create HintDb flat.
#[local] Hint Resolve builtRecord_nil builtRecord_set builtRecord_assign : flat.

Lemma flattenItems_flat newKey items :
  Forall returnsFlat items ->
  forall index flattened r,
    builtRecord flattened ->
    flattenItems flattenObject newKey items index flattened = Some r ->
    builtRecord r.
Proof.
  induction 1 as [|item rest Hitem _ IH]; intros index flattened r Hfl Hr;
    cbn [flattenItems] in Hr.
  - now injection Hr as <-.
  - some_or_absurd Hr sub Hsub.
    eapply IH; [|exact Hr]. apply builtRecord_assign; [assumption|].
    eapply Hitem, Hsub.
Qed.

Lemma flattenLoop_flat prefix entries :
  Forall (fun kv => entryKeepsFlat (snd kv)) entries ->
  forall flattened r,
    builtRecord flattened ->
    flattenLoop prefix entries flattened = Some r ->
    builtRecord r.
Proof.
  unfold flattenLoop.
  induction 1 as [|[key value] rest Hentry _ IH]; intros flattened r Hfl Hr;
    cbn [flattenLoopWith] in Hr.
  - now injection Hr as <-.
  - some_or_absurd Hr flattened' Hstep.
    eapply IH; [|exact Hr]. eapply Hentry; eassumption.
Qed.

Lemma Forall_indexed {A : Type} (P : A -> Prop) (l : list A) (i : nat) :
  Forall P l -> Forall (fun kv => P (snd kv)) (indexed i l).
Proof.
  intros H. revert i. induction H; intros i; cbn [indexed]; constructor; auto.
Qed.

Lemma entryKeepsFlat_scalar v :
  isScalar v = true -> entryKeepsFlat v.
Proof.
  intros Hv prefix flattened key r Hfl Hr.
  destruct v as [|[]| | | |]; try discriminate;
    cbn in Hr; injection Hr as <-; auto with flat.
Qed.

Lemma flatten_flat_both (v : JValue) : returnsFlat v /\ entryKeepsFlat v.
Proof.
  induction v as [| b | n | s | l IH | o IH] using JValue_nested_ind.
  - split; [intros prefix r H; discriminate|].
    now apply entryKeepsFlat_scalar.
  - split; [intros prefix r H; injection H as <-; auto with flat|].
    now apply entryKeepsFlat_scalar.
  - split; [intros prefix r H; injection H as <-; auto with flat|].
    now apply entryKeepsFlat_scalar.
  - split; [|now apply entryKeepsFlat_scalar].
    intros prefix r H. rewrite flattenObject_entries in H.
    cbn [Object_entries] in H.
    eapply flattenLoop_flat; [|apply builtRecord_nil|exact H].
    apply Forall_indexed. apply Forall_forall. intros x Hx.
    apply in_map_iff in Hx as [c [<- _]].
    now apply entryKeepsFlat_scalar.
  - assert (Hret : returnsFlat (JArr l)).
    { intros prefix r H. rewrite flattenObject_entries in H.
      cbn [Object_entries] in H.
      eapply flattenLoop_flat; [|apply builtRecord_nil|exact H].
      apply Forall_indexed. eapply Forall_impl; [|exact IH].
      now intros a [_ Ha]. }
    split; [exact Hret|].
    intros prefix flattened key r Hfl Hr. unfold flattenEntry in Hr.
    destruct (startsWithObject l).
    + eapply flattenItems_flat; [|exact Hfl|exact Hr].
      eapply Forall_impl; [|exact IH]. now intros a [Ha _].
    + destruct (mapM String_or_empty l) as [texts|]; [|discriminate].
      cbn in Hr. injection Hr as <-. auto with flat.
  - assert (Hret : returnsFlat (JObj o)).
    { intros prefix r H. rewrite flattenObject_entries in H.
      cbn [Object_entries] in H.
      eapply flattenLoop_flat; [|apply builtRecord_nil|exact H].
      eapply Forall_impl; [|exact IH]. now intros a [_ Ha]. }
    split; [exact Hret|].
    intros prefix flattened key r Hfl Hr. unfold flattenEntry in Hr.
    destruct (flattenObject (JObj o) (newKeyOf prefix key)) as [sub|] eqn:Hsub;
      [|discriminate].
    cbn in Hr. injection Hr as <-.
    apply builtRecord_assign; [assumption|]. eapply Hret, Hsub.
Qed.

(** Whatever the flattener returns is a single-level Record, built by
    writes from the empty object. *)
Lemma flattenObject_built (obj : JValue) (prefix : string) (r : Obj) :
  flattenObject obj prefix = Some r -> builtRecord r.
Proof. apply flatten_flat_both. Qed.

Lemma flattenObject_flat (obj : JValue) (prefix : string) (r : Obj) :
  flattenObject obj prefix = Some r -> flatRecord r.
Proof. intros H. eapply builtRecord_flat, flattenObject_built, H. Qed.

Lemma newKeyOf_empty (key : string) : newKeyOf "" key = key.
Proof. reflexivity. Qed.

(** Flattening a built Record field by field rebuilds it. *)
Lemma flattenLoop_record (r : Obj) :
  isRecord r = true ->
  forall flattened,
    built (flattened ++ r) ->
    flattenLoop "" r flattened = Some (flattened ++ r).
Proof.
  unfold flattenLoop.
  induction r as [|[k v] r IH]; intros Hrec flattened Hb;
    cbn [flattenLoopWith].
  - now rewrite app_nil_r.
  - rewrite isRecord_cons in Hrec. apply andb_true_iff in Hrec as [Hv Hrec].
    destruct v; try discriminate. rewrite flattenEntry_string, newKeyOf_empty.
    assert (Heq : flattened ++ (k, JStr s) :: r
                  = (flattened ++ [(k, JStr s)]) ++ r)
      by now rewrite <- app_assoc.
    rewrite Heq in Hb. destruct Hb as [Hnd [Hen Hproto]].
    rewrite set_last.
    + rewrite IH; [now rewrite <- app_assoc | assumption|].
      repeat split; assumption.
    + rewrite !keys_app in Hnd. cbn in Hnd. rewrite <- app_assoc in Hnd.
      cbn in Hnd. apply NoDup_remove_2 in Hnd. intros Hin. apply Hnd.
      apply in_or_app. now left.
    + intros ->. apply Hproto. rewrite !keys_app. cbn.
      apply in_or_app. left. apply in_or_app. right. now left.
    + unfold enumerated in Hen. rewrite keys_app in Hen.
      apply inOrder_app in Hen as [Hen _].
      rewrite keys_app in Hen. cbn in Hen.
      now apply inOrder_snoc in Hen as [_ Hen].
Qed.

Lemma mapM_map {A B : Type} (f : A -> option B) (g : A -> B) (l : list A) :
  (forall x, In x l -> f x = Some (g x)) -> mapM f l = Some (map g l).
Proof.
  induction l as [|x l IH]; intros H; [reflexivity|].
  cbn [mapM map]. rewrite (H x (or_introl eq_refl)).
  fold (mapM f l). rewrite IH; [reflexivity|]. intros y Hy. apply H. now right.
Qed.

Lemma mapM_isSome {A B : Type} (f : A -> option B) (p : A -> bool)
    (l : list A) :
  (forall x, isSome (f x) = p x) -> isSome (mapM f l) = forallb p l.
Proof.
  intros H. induction l as [|x l IH]; [reflexivity|].
  cbn [mapM forallb]. rewrite <- (H x). fold (mapM f l).
  destruct (f x); [|reflexivity]. rewrite <- IH.
  now destruct (mapM f l).
Qed.

Lemma String_scalar (v : JValue) :
  isScalar v = true -> String_ v = Some (textOf v).
Proof. unfold textOf. destruct v as [|[]| | | |]; try discriminate; reflexivity. Qed.

Lemma String_or_empty_scalar (v : JValue) :
  isScalar v = true -> String_or_empty v = Some (textOrNothing v).
Proof.
  intros Hv. unfold String_or_empty, textOrNothing.
  destruct (truthy v); [now apply String_scalar | reflexivity].
Qed.

Lemma String_or_empty_renders (item : JValue) :
  isSome (String_or_empty item) = renders item.
Proof.
  unfold String_or_empty, renders.
  destruct (truthy item) eqn:Ht; [now destruct (String_ item)|].
  destruct item as [|[]| | | |]; try discriminate; reflexivity.
Qed.

Lemma textOrNothing_truthy (items : list JValue) :
  forallb truthy items = true -> map textOrNothing items = map textOf items.
Proof.
  induction items as [|item items IH]; cbn; intros H; [reflexivity|].
  apply andb_true_iff in H as [Hitem Hitems].
  unfold textOrNothing at 1. rewrite Hitem. now rewrite IH.
Qed.

Lemma entryOk_JArr (items : list JValue) :
  entryOk (JArr items)
  = if startsWithObject items then forallb flattens items
    else forallb renders items.
Proof. reflexivity. Qed.

Lemma flattenLoop_isSome prefix entries :
  Forall (fun kv => entryAgrees (snd kv)) entries ->
  forall flattened,
    isSome (flattenLoop prefix entries flattened)
    = forallb (fun kv => entryOk (snd kv)) entries.
Proof.
  unfold flattenLoop.
  induction 1 as [|[key value] rest Hentry _ IH]; intros flattened;
    [reflexivity|].
  cbn [flattenLoopWith forallb snd]. cbn [snd] in Hentry.
  rewrite <- (Hentry prefix flattened key).
  destruct (flattenEntry flattenObject prefix flattened key value);
    [apply IH | reflexivity].
Qed.

Lemma flattenItems_isSome newKey items :
  Forall objectAgrees items ->
  forall index flattened,
    isSome (flattenItems flattenObject newKey items index flattened)
    = forallb flattens items.
Proof.
  induction 1 as [|item rest Hitem _ IH]; intros index flattened;
    [reflexivity|].
  cbn [flattenItems forallb].
  rewrite <- (Hitem (newKey ++ "_" ++ string_of_nat index)%string).
  destruct (flattenObject item _); [apply IH | reflexivity].
Qed.

Lemma forallb_indexed {A : Type} (p : A -> bool) (l : list A) (i : nat) :
  forallb (fun kv => p (snd kv)) (indexed i l) = forallb p l.
Proof.
  revert i. induction l as [|x l IH]; intros i; cbn; [reflexivity|].
  now rewrite IH.
Qed.

Lemma entryAgrees_scalar (v : JValue) : isScalar v = true -> entryAgrees v.
Proof.
  intros Hv prefix flattened key.
  destruct v as [|[]| | | |]; try discriminate; reflexivity.
Qed.

Lemma flatten_agrees (v : JValue) : objectAgrees v /\ entryAgrees v.
Proof.
  induction v as [| b | n | s | l IH | o IH] using JValue_nested_ind;
    try (split; [intros ?; reflexivity | now apply entryAgrees_scalar]).
  - split; [|now apply entryAgrees_scalar].
    intros prefix. rewrite flattenObject_entries. cbn [Object_entries flattens].
    rewrite flattenLoop_isSome.
    + rewrite forallb_indexed. induction (chars s); cbn; auto.
    + apply Forall_indexed. apply Forall_forall. intros x Hx.
      apply in_map_iff in Hx as [c [<- _]]. now apply entryAgrees_scalar.
  - split.
    + intros prefix. rewrite flattenObject_entries.
      cbn [Object_entries flattens].
      rewrite flattenLoop_isSome; [apply forallb_indexed|].
      apply Forall_indexed. eapply Forall_impl; [|exact IH].
      now intros a [_ Ha].
    + intros prefix flattened key. rewrite entryOk_JArr. unfold flattenEntry.
      destruct (startsWithObject l).
      * apply flattenItems_isSome. eapply Forall_impl; [|exact IH].
        now intros a [Ha _].
      * rewrite <- (mapM_isSome String_or_empty renders l
                      String_or_empty_renders).
        now destruct (mapM String_or_empty l).
  - assert (Hobj : objectAgrees (JObj o)).
    { intros prefix. rewrite flattenObject_entries.
      cbn [Object_entries flattens].
      apply flattenLoop_isSome. eapply Forall_impl; [|exact IH].
      now intros a [_ Ha]. }
    split; [exact Hobj|].
    intros prefix flattened key. unfold flattenEntry.
    specialize (Hobj (newKeyOf prefix key)).
    destruct (flattenObject (JObj o) (newKeyOf prefix key)); exact Hobj.
Qed.

(** X1. The flattener returns a single-level Record exactly on the values
    on which [flattens] holds, and throws on the others: it throws on
    [null]; wherever the loop hands it [null], which is an element of a
    sequence that is the value of a field and whose first element is
    object-typed; and wherever the loop joins the elements of a sequence
    whose first element is not object-typed and one of them does not
    render, because it is or holds an object that owns a property
    [toString]. *)
Theorem flattenObject_domain (obj : JValue) (prefix : string) :
  (flattens obj = true ->
   exists r, flattenObject obj prefix = Some r /\ flatRecord r) /\
  (flattens obj = false -> flattenObject obj prefix = None).
Proof.
  pose proof (proj1 (flatten_agrees obj) prefix) as H.
  destruct (flattenObject obj prefix) as [r|] eqn:Hr; cbn in H; rewrite <- H.
  - split; [|discriminate]. intros _. exists r. split; [reflexivity|].
    eapply flattenObject_flat, Hr.
  - split; [discriminate | reflexivity].
Qed.

(** C5. On the flat Record that the JSON text with the one field
    [__proto__] denotes, the flattener does not return the Record: its
    write of that key reaches the setter of [Object.prototype], and the
    field is lost; parseDocument returns a Record without fields. *)
Theorem flattenObject_drops_proto_field :
  JSON_parse ("{" ++ dquote ++ "__proto__" ++ dquote ++ ":" ++ dquote ++ "x"
              ++ dquote ++ "}")%string
  = Parsed (JObj [("__proto__", JStr "x")]) /\
  isRecord [("__proto__", JStr "x")] = true /\
  flattenObject (JObj [("__proto__", JStr "x")]) "" = Some [] /\
  flattenObject (JObj [("__proto__", JStr "x"); ("a", JStr "1")]) ""
  = Some [("a", JStr "1")] /\
  parseDocument
    (Text ("{" ++ dquote ++ "__proto__" ++ dquote ++ ":" ++ dquote ++ "x"
           ++ dquote ++ "}")%string) false
  = Resolved [[]].
Proof. repeat split; vm_compute; reflexivity. Qed.

Lemma built_bool (r : Obj) :
  distinctKeys r = true -> enumerated r = true ->
  hasOwn "__proto__" r = false -> built r.
Proof.
  intros Hd He Hp. repeat split.
  - now apply distinctKeys_NoDup.
  - exact He.
  - now apply hasOwn_false.
Qed.

(** X2. The flattener returns unchanged every flat Record whose keys are
    distinct, in enumeration order and not [__proto__], and so returns any
    of its own results unchanged. *)
Theorem flattenObject_idempotent :
  (forall r,
     isRecord r = true -> distinctKeys r = true -> enumerated r = true ->
     hasOwn "__proto__" r = false ->
     flattenObject (JObj r) "" = Some r) /\
  (forall obj prefix r,
     flattenObject obj prefix = Some r -> flattenObject (JObj r) "" = Some r).
Proof.
  assert (Hfix : forall r, isRecord r = true -> built r ->
                           flattenObject (JObj r) "" = Some r).
  { intros r Hrec Hb. rewrite flattenObject_entries. cbn [Object_entries].
    now rewrite flattenLoop_record. }
  split.
  - intros r Hrec Hd He Hp. apply Hfix; [exact Hrec|]. now apply built_bool.
  - intros obj prefix r Hr. apply flattenObject_built in Hr as [Hb Hrec].
    now apply Hfix.
Qed.

Lemma flattenObject_idempotent_witness :
  flattenObject (JObj [("7", JStr "x"); ("name", JStr "Alice");
                       ("age", JStr "30")]) ""
  = Some [("7", JStr "x"); ("name", JStr "Alice"); ("age", JStr "30")] /\
  flattenObject (JObj [("user_name", JStr "Alice"); ("user_tags", JStr "x, y")])
    ""
  = Some [("user_name", JStr "Alice"); ("user_tags", JStr "x, y")].
Proof.
  split.
  - exact (proj1 flattenObject_idempotent
             [("7", JStr "x"); ("name", JStr "Alice"); ("age", JStr "30")]
             eq_refl eq_refl eq_refl eq_refl).
  - exact (proj2 flattenObject_idempotent nested_example ""
             [("user_name", JStr "Alice"); ("user_tags", JStr "x, y")]
             eq_refl).
Defined.

(** C6. A zero or a [false] in a sequence of scalars is rendered as
    nothing, not as its string representation, which the same element gets
    as the value of a field. *)
Theorem flattenObject_blanks_zero :
  flattenObject (JObj [("a", JArr [JNum "0"; JNum "1"])]) ""
  = Some [("a", JStr ", 1")] /\
  option_map (join ", ") (mapM String_ [JNum "0"; JNum "1"])
  = Some "0, 1"%string /\
  flattenObject (JObj [("a", JArr [JBool false; JStr "x"])]) ""
  = Some [("a", JStr ", x")] /\
  flattenObject (JObj [("a", JNum "0"); ("b", JBool false)]) ""
  = Some [("a", JStr "0"); ("b", JStr "false")] /\
  parseDocument (Text ("{" ++ dquote ++ "a" ++ dquote ++ ":[0,1]}")%string)
    false
  = Resolved [[("a", Data (JStr ", 1"))]].
Proof. repeat split; vm_compute; reflexivity. Qed.

Lemma scalars_start_without_object (items : list JValue) :
  forallb isScalar items = true -> startsWithNull items = false ->
  startsWithObject items = false.
Proof.
  destruct items as [|[] items]; cbn; intros Hscalar Hnull;
    reflexivity || discriminate.
Qed.

(** X3. For a field whose value is a sequence of scalars that does not
    start with [null], the loop writes under the field's prefix-joined key
    the comma-space join of the elements, each rendered by
    [String(item || '')]: a truthy element as its string representation, a
    falsy one as nothing. *)
Theorem flattenObject_joins_scalars
    (prefix key : string) (items : list JValue)
    (rest : list (string * JValue)) (flattened : Obj) :
  forallb isScalar items = true ->
  startsWithNull items = false ->
  let joined := JStr (join ", " (map textOrNothing items)) in
  flattenLoop prefix ((key, JArr items) :: rest) flattened
  = flattenLoop prefix rest (set (newKeyOf prefix key) joined flattened)
  /\ (newKeyOf prefix key <> "__proto__"%string ->
      flattenObject (JObj [(key, JArr items)]) prefix
      = Some [(newKeyOf prefix key, joined)])
  /\ (forall item, In item items ->
        String_or_empty item = Some (textOrNothing item)
        /\ (truthy item = true -> String_ item = Some (textOrNothing item))
        /\ (truthy item = false -> textOrNothing item = ""%string))
  /\ flattenObject nested_example ""
     = Some [("user_name", JStr "Alice"); ("user_tags", JStr "x, y")].
Proof.
  intros Hscalar Hnull joined.
  pose proof (scalars_start_without_object items Hscalar Hnull) as Hfirst.
  rewrite forallb_forall in Hscalar.
  assert (Htexts : mapM String_or_empty items
                   = Some (map textOrNothing items)).
  { apply mapM_map. intros x Hx. apply String_or_empty_scalar. auto. }
  assert (Hstep : forall fl,
             flattenEntry flattenObject prefix fl key (JArr items)
             = Some (set (newKeyOf prefix key) joined fl)).
  { intros fl. unfold flattenEntry. now rewrite Hfirst, Htexts. }
  split; [|split; [|split]].
  - unfold flattenLoop. cbn [flattenLoopWith]. now rewrite Hstep.
  - intros Hkey. rewrite flattenObject_entries. cbn [Object_entries].
    unfold flattenLoop. cbn [flattenLoopWith]. rewrite Hstep.
    rewrite set_last; [reflexivity | intros [] | exact Hkey | intros a []].
  - intros item Hin. pose proof (Hscalar item Hin) as Hitem.
    split; [now apply String_or_empty_scalar|]. split.
    + intros Ht. rewrite String_scalar by exact Hitem.
      unfold textOrNothing. now rewrite Ht.
    + intros Ht. unfold textOrNothing. now rewrite Ht.
  - vm_compute. reflexivity.
Qed.

Lemma flattenObject_joins_scalars_witness :
  forallb isScalar [JStr "x"; JNull; JStr "y"] = true /\
  startsWithNull [JStr "x"; JNull; JStr "y"] = false /\
  flattenObject (JObj [("tags", JArr [JStr "x"; JNull; JStr "y"])]) "user"
  = Some [("user_tags", JStr "x, , y")].
Proof.
  split; [reflexivity|]. split; [reflexivity|].
  apply (proj1 (proj2 (flattenObject_joins_scalars "user" "tags"
                         [JStr "x"; JNull; JStr "y"] [] [] eq_refl eq_refl))).
  discriminate.
Defined.

(** C9. The flattener is total, but on a finite JSON value with a [null]
    inside a sequence that starts with an object-typed element it throws
    instead of returning a Record, and parseDocument then rejects the
    text. *)
Theorem flattenObject_throws_on_null_item :
  flattenObject (JObj [("a", JArr [JNull])]) "" = None /\
  flattenObject (JObj [("a", JArr [JObj [("b", JStr "1")]; JNull])]) "" = None /\
  parseDocument
    (Text ("{" ++ dquote ++ "a" ++ dquote ++ ":[null]}")%string) false
  = Rejected remediationMessage.
Proof. split; [|split]; vm_compute; reflexivity. Qed.

(** ** The table branch of normalizeData *)




(** C7. A cell that is present but is zero or [false] is replaced by the
    empty string, whereas the branch for a sequence of scalars renders the
    same values as their string representations; the table of the claim,
    which has no such cell, normalizes as the claim says. *)
Theorem normalizeData_blanks_zero_cell :
  normalizeData (JArr [JArr [JStr "item"; JStr "count"];
                       JArr [JStr "apple"; JNum "0"]])
  = Done [[("item", JStr "apple"); ("count", JStr "")]] /\
  normalizeData (JArr [JArr [JStr "name"; JStr "paid"];
                       JArr [JStr "Ann"; JBool false]])
  = Done [[("name", JStr "Ann"); ("paid", JStr "")]] /\
  normalizeData (JArr [JNum "0"; JBool false])
  = Done [[("value", JStr "0")]; [("value", JStr "false")]] /\
  parseDocument
    (Text ("[[" ++ dquote ++ "item" ++ dquote ++ "," ++ dquote ++ "count"
           ++ dquote ++ "],[" ++ dquote ++ "apple" ++ dquote ++ ",0]]")%string)
    false
  = Resolved [[("item", Data (JStr "apple")); ("count", Data (JStr ""))]] /\
  normalizeData
    (JArr [JArr [JStr "name"; JStr "age"]; JArr [JStr "Alice"; JStr "30"];
           JArr [JStr "Bob"; JStr "25"]])
  = Done [[("name", JStr "Alice"); ("age", JStr "30")];
          [("name", JStr "Bob"); ("age", JStr "25")]].
Proof. repeat split; vm_compute; reflexivity. Qed.



(** ** removeDuplicates *)

Lemma append_assoc (s1 s2 s3 : string) :
  ((s1 ++ s2) ++ s3 = s1 ++ (s2 ++ s3))%string.
Proof. induction s1 as [|c s1 IH]; cbn; [reflexivity|]. now rewrite IH. Qed.

(** Reading back one escaped character. *)
Lemma parse_string_body_quote_ascii (c : ascii) (t : string) :
  parse_string_body (quote_ascii c ++ t)%string
  = bindP (parse_string_body t) (fun '(body, rest) => Parsed (String c body, rest)).
Proof.
  destruct c as [[] [] [] [] [] [] [] []]; reflexivity.
Qed.

(** [JSON.parse] reads back what [JSON.stringify] writes for a string. *)
Lemma parse_string_body_quote_body (s rest : string) :
  parse_string_body (quote_body s ++ dquote ++ rest)%string = Parsed (s, rest).
Proof.
  induction s as [|c s IH]; [reflexivity|].
  cbn [quote_body]. rewrite append_assoc, parse_string_body_quote_ascii, IH.
  reflexivity.
Qed.

Lemma quote_body_prefix_free (s1 s2 t1 t2 : string) :
  (quote_body s1 ++ dquote ++ t1 = quote_body s2 ++ dquote ++ t2)%string ->
  s1 = s2 /\ t1 = t2.
Proof.
  intros H.
  pose proof (parse_string_body_quote_body s1 t1) as H1.
  rewrite H, parse_string_body_quote_body in H1.
  injection H1 as -> ->. auto.
Qed.

Lemma serialise_members (r : Obj) :
  serialise r = String "{" (join "," (map member r) ++ "}")%string.
Proof. reflexivity. Qed.

Lemma join_members_cons (kv : string * JValue) (l : list (string * JValue))
    (t : string) :
  (join "," (map member (kv :: l)) ++ String "}" t)%string
  = (member kv ++ membersTail l t)%string.
Proof.
  destruct l as [|kv' l]; cbn [map join membersTail]; [reflexivity|].
  now rewrite append_assoc.
Qed.

Lemma member_string (k v : string) (t : string) :
  (member (k, JStr v) ++ t)%string
  = String (ascii_of_nat 34)
      (quote_body k ++ dquote
       ++ String ":" (String (ascii_of_nat 34) (quote_body v ++ dquote ++ t)))%string.
Proof.
  unfold member. cbn [fst snd JSON_stringify]. unfold quoteJSON.
  unfold dquote. cbn [append].
  rewrite !append_assoc. cbn [append]. rewrite !append_assoc. cbn [append].
  reflexivity.
Qed.

Lemma members_inj (r1 : Obj) :
  forall (r2 : Obj) (t1 t2 : string),
    isRecord r1 = true -> isRecord r2 = true ->
    (join "," (map member r1) ++ String "}" t1
     = join "," (map member r2) ++ String "}" t2)%string ->
    r1 = r2 /\ t1 = t2.
Proof.
  induction r1 as [|[k1 v1] r1 IH]; intros [|[k2 v2] r2] t1 t2 H1 H2 Heq.
  - cbn in Heq. injection Heq as ->. auto.
  - rewrite join_members_cons in Heq. discriminate Heq.
  - rewrite join_members_cons in Heq. discriminate Heq.
  - rewrite !join_members_cons in Heq.
    cbn in H1, H2.
    apply andb_true_iff in H1 as [Hv1 H1]. apply andb_true_iff in H2 as [Hv2 H2].
    destruct v1 as [| | |v1| |]; try discriminate.
    destruct v2 as [| | |v2| |]; try discriminate.
    rewrite !member_string in Heq. injection Heq as Heq.
    apply quote_body_prefix_free in Heq as [-> Heq].
    injection Heq as Heq.
    apply quote_body_prefix_free in Heq as [-> Heq].
    destruct r1 as [|kv1 r1], r2 as [|kv2 r2]; cbn [membersTail] in Heq.
    + injection Heq as ->. auto.
    + discriminate.
    + discriminate.
    + injection Heq as Heq.
      destruct (IH (kv2 :: r2) t1 t2 H1 H2 Heq) as [-> ->]. auto.
Qed.

(** Records with the same serialisation are the same Record: same keys in
    the same order, same values. *)
Lemma serialise_inj (r1 r2 : Obj) :
  isRecord r1 = true -> isRecord r2 = true ->
  serialise r1 = serialise r2 -> r1 = r2.
Proof.
  intros H1 H2 Heq. rewrite !serialise_members in Heq.
  injection Heq as Heq.
  now destruct (members_inj r1 r2 "" "" H1 H2 Heq).
Qed.

Lemma has_In (s : StrSet) (k : string) : has s k = true <-> In k s.
Proof. apply existsb_eqb_In. Qed.

Lemma has_add (s : StrSet) (x k : string) :
  has (add s x) k = has s k || String.eqb x k.
Proof.
  unfold add. destruct (has s x) eqn:Hx.
  - destruct (String.eqb_spec x k) as [->|Hne].
    + now rewrite Hx.
    + now rewrite orb_false_r.
  - unfold has. rewrite existsb_app. cbn. rewrite orb_false_r.
    now rewrite (String.eqb_sym k x).
Qed.

Lemma In_add (s : StrSet) (x k : string) : In k (add s x) <-> In k s \/ x = k.
Proof.
  rewrite <- !has_In, has_add, orb_true_iff.
  now rewrite String.eqb_eq.
Qed.

Lemma NoDup_snoc {A : Type} (l : list A) (x : A) :
  NoDup l -> ~ In x l -> NoDup (l ++ [x]).
Proof.
  intros Hnd Hx. apply NoDup_app; [assumption | repeat constructor; auto|].
  intros y Hy [<-|[]]. contradiction.
Qed.

Lemma NoDup_add (s : StrSet) (x : string) : NoDup s -> NoDup (add s x).
Proof.
  intros Hnd. unfold add. destruct (has s x) eqn:Hx; [assumption|].
  apply NoDup_snoc; [assumption|]. intros Hin. apply has_In in Hin. congruence.
Qed.

Lemma removeDuplicates_from_cons (seen : StrSet) (x : Obj)
    (entries : list Obj) :
  removeDuplicates_from seen (x :: entries)
  = if has seen (serialise x) then removeDuplicates_from seen entries
    else x :: removeDuplicates_from (add seen (serialise x)) entries.
Proof. reflexivity. Qed.

Lemma removeDuplicates_from_snoc (seen : StrSet) (entries : list Obj)
    (e : Obj) :
  removeDuplicates_from seen (entries ++ [e])
  = removeDuplicates_from seen entries
    ++ (if has seen (serialise e) || duplicates entries e then [] else [e]).
Proof.
  revert seen. induction entries as [|x entries IH]; intros seen.
  - cbn [app duplicates existsb]. rewrite removeDuplicates_from_cons.
    rewrite orb_false_r. now destruct (has seen (serialise e)).
  - cbn [app]. rewrite !removeDuplicates_from_cons.
    unfold duplicates. cbn [existsb]. fold (duplicates entries e).
    destruct (has seen (serialise x)) eqn:Hx.
    + rewrite IH. f_equal.
      destruct (String.eqb_spec (serialise x) (serialise e)) as [Heq|Hne].
      * rewrite <- Heq, Hx. reflexivity.
      * reflexivity.
    + rewrite IH, has_add. cbn [app]. now rewrite orb_assoc.
Qed.

Lemma removeDuplicates_from_firstOccurrences (entries : list Obj) :
  forall (seen : StrSet) (earlier : list Obj),
    (forall k, has seen k
               = existsb (fun e => String.eqb (serialise e) k) earlier) ->
    removeDuplicates_from seen entries = firstOccurrences earlier entries.
Proof.
  induction entries as [|x entries IH]; intros seen earlier Hseen;
    [reflexivity|].
  rewrite removeDuplicates_from_cons. cbn [firstOccurrences].
  unfold duplicates. rewrite <- Hseen.
  destruct (has seen (serialise x)) eqn:Hx; cbn [app].
  - apply IH. intros k. rewrite existsb_app, <- Hseen. cbn [existsb].
    rewrite orb_false_r.
    destruct (String.eqb_spec (serialise x) k) as [<-|Hne].
    + now rewrite Hx.
    + now rewrite orb_false_r.
  - f_equal. apply IH. intros k.
    rewrite has_add, existsb_app, <- Hseen. cbn [existsb].
    now rewrite orb_false_r.
Qed.

Lemma removeDuplicates_from_In (seen : StrSet) (entries : list Obj) (e : Obj) :
  In e (removeDuplicates_from seen entries) ->
  In e entries /\ has seen (serialise e) = false.
Proof.
  revert seen. induction entries as [|x entries IH]; intros seen;
    [contradiction|]. rewrite removeDuplicates_from_cons. cbn [In].
  destruct (has seen (serialise x)) eqn:Hx.
  - intros Hin. apply IH in Hin as [Hin Hseen]. auto.
  - cbn [In]. intros [->|Hin]; [auto|].
    apply IH in Hin as [Hin Hseen]. rewrite has_add in Hseen.
    apply orb_false_iff in Hseen as [Hseen _]. auto.
Qed.

Lemma removeDuplicates_from_NoDup (seen : StrSet) (entries : list Obj) :
  NoDup (map serialise (removeDuplicates_from seen entries)).
Proof.
  revert seen. induction entries as [|x entries IH]; intros seen;
    [constructor|]. rewrite removeDuplicates_from_cons.
  destruct (has seen (serialise x)) eqn:Hx; [apply IH|].
  cbn [map]. constructor; [|apply IH].
  intros Hin. apply in_map_iff in Hin as [e [Heq Hin]].
  apply removeDuplicates_from_In in Hin as [_ Hseen].
  rewrite has_add, Heq, String.eqb_refl, orb_true_r in Hseen. discriminate.
Qed.

Lemma removeDuplicates_from_covers (seen : StrSet) (entries : list Obj)
    (e : Obj) :
  In e entries ->
  has seen (serialise e) = true
  \/ In (serialise e) (map serialise (removeDuplicates_from seen entries)).
Proof.
  revert seen. induction entries as [|x entries IH]; intros seen;
    [contradiction|]. rewrite removeDuplicates_from_cons. cbn [In].
  intros [->|Hin].
  - destruct (has seen (serialise e)) eqn:He; [now left|]. right. now left.
  - destruct (has seen (serialise x)) eqn:Hx; [now apply IH|].
    destruct (IH (add seen (serialise x)) Hin) as [Hseen|Hres].
    + rewrite has_add in Hseen. apply orb_true_iff in Hseen as [Hseen|Heq].
      * now left.
      * apply String.eqb_eq in Heq. right. left. exact Heq.
    + right. now right.
Qed.

Lemma count_occ_NoDup_In (l : list string) (x : string) :
  NoDup l -> In x l -> count_occ string_dec l x = 1.
Proof.
  intros Hnd Hin.
  pose proof (proj1 (NoDup_count_occ string_dec l) Hnd x) as Hle.
  pose proof (proj1 (count_occ_In string_dec l x) Hin) as Hgt. lia.
Qed.

(** ** mergeEntries *)

Section Writes.
Context {V : Type}.

Lemma In_update (k : string) (v : V) (o : Properties V) (kv : string * V) :
  In kv (update k v o) -> In kv o \/ kv = (k, v).
Proof.
  induction o as [|[k' v'] o IH]; cbn; [contradiction|].
  destruct (String.eqb_spec k k') as [->|Hne]; cbn.
  - intros [<-|H]; auto.
  - intros [<-|H]; [auto|]. destruct (IH H); auto.
Qed.

Lemma In_set (k : string) (v : V) (o : Properties V) (kv : string * V) :
  In kv (set k v o) -> In kv o \/ kv = (k, v).
Proof.
  destruct (set_split k v o) as [[_ [_ ->]]|[[_ ->]|[_ [_ [o1 [o2 [-> ->]]]]]]].
  - auto.
  - apply In_update.
  - rewrite !in_app_iff. cbn. intuition.
Qed.

(** The fields that a loop of writes leaves hold the values written. *)
Lemma fold_set_pairs (f : string -> V) (ks : list string) :
  forall (acc : Properties V),
    (forall k v, In (k, v) acc -> v = f k) ->
    forall k v,
      In (k, v) (fold_left (fun n key => set key (f key) n) ks acc) ->
      v = f k.
Proof.
  induction ks as [|k0 ks IH]; cbn [fold_left]; intros acc Hacc; [exact Hacc|].
  apply IH. intros k v Hin. apply In_set in Hin as [Hin|Heq].
  - now apply Hacc.
  - now injection Heq as -> ->.
Qed.

Lemma In_keys_set_iff (k : string) (v : V) (o : Properties V) (x : string) :
  In x (keys (set k v o))
  <-> In x (keys o) \/ (x = k /\ k <> "__proto__"%string).
Proof.
  split.
  - destruct (set_split k v o)
      as [[_ [_ ->]]|[[_ ->]|[_ [Hk [o1 [o2 [-> ->]]]]]]].
    + auto.
    + rewrite keys_update. auto.
    + rewrite !keys_app. cbn. rewrite !in_app_iff. cbn. intuition.
  - intros [Hin|[-> Hk]].
    + now apply In_keys_set_old.
    + now apply In_keys_set_new.
Qed.

Lemma fold_set_keys (f : string -> V) (ks : list string) :
  forall (acc : Properties V) (k : string),
    In k (keys (fold_left (fun n key => set key (f key) n) ks acc))
    <-> In k (keys acc) \/ (In k ks /\ k <> "__proto__"%string).
Proof.
  induction ks as [|k0 ks IH]; cbn [fold_left]; intros acc k.
  - cbn. tauto.
  - rewrite IH, In_keys_set_iff. cbn [In]. split.
    + intros [[Hin|[-> Hk]]|[Hin Hk]]; auto.
    + intros [Hin|[[->|Hin] Hk]]; auto.
Qed.

Lemma fold_set_NoDup (f : string -> V) (ks : list string) :
  forall (acc : Properties V),
    NoDup (keys acc) ->
    NoDup (keys (fold_left (fun n key => set key (f key) n) ks acc)).
Proof.
  induction ks as [|k0 ks IH]; cbn [fold_left]; intros acc Hnd; [assumption|].
  apply IH. now apply NoDup_keys_set.
Qed.

Lemma fold_set_get (f : string -> V) (ks : list string) (k : string) :
  k <> "__proto__"%string ->
  forall (acc : Properties V),
    In k ks \/ get k acc = Some (f k) ->
    get k (fold_left (fun n key => set key (f key) n) ks acc) = Some (f k).
Proof.
  intros Hk. induction ks as [|k0 ks IH]; cbn [fold_left]; intros acc H.
  - now destruct H as [[]|H].
  - apply IH. destruct (String.eqb_spec k k0) as [<-|Hne].
    + right. now apply get_set_same.
    + destruct H as [[Heq|Hin]|Hget]; [congruence | now left|].
      right. now rewrite get_set_other.
Qed.

(** The keys after a write depend on the keys before it only. *)
Lemma keys_insertIndex (i : Z) (k : string) (v v' : V) (o : Properties V) :
  forall o', keys o = keys o' ->
    keys (insertIndex i k v o) = keys (insertIndex i k v' o').
Proof.
  induction o as [|[k1 v1] o IH]; intros [|[k2 v2] o'] Heq;
    try discriminate; [reflexivity|].
  rewrite !keys_cons in Heq. injection Heq as <- Heq. cbn [insertIndex].
  destruct (arrayIndex k1) as [j|]; [destruct (j <? i)%Z|].
  - rewrite !keys_cons. f_equal. now apply IH.
  - rewrite !keys_cons. now rewrite Heq.
  - rewrite !keys_cons. now rewrite Heq.
Qed.

Lemma keys_set_keys (k : string) (v v' : V) (o o' : Properties V) :
  keys o = keys o' -> keys (set k v o) = keys (set k v' o').
Proof.
  intros Heq. unfold set, define, hasOwn. rewrite <- Heq.
  destruct (existsb (String.eqb k) (keys o)); cbn [negb andb].
  - now rewrite !keys_update.
  - destruct (String.eqb k "__proto__"); [assumption|].
    destruct (arrayIndex k) as [i|].
    + now apply keys_insertIndex.
    + rewrite !keys_app. now rewrite Heq.
Qed.

Lemma fold_set_keys_keys (f g : string -> V) (ks : list string) :
  forall (acc acc' : Properties V),
    keys acc = keys acc' ->
    keys (fold_left (fun n key => set key (f key) n) ks acc)
    = keys (fold_left (fun n key => set key (g key) n) ks acc').
Proof.
  induction ks as [|k0 ks IH]; cbn [fold_left]; intros acc acc' Heq;
    [assumption|]. apply IH. now apply keys_set_keys.
Qed.

End Writes.

(** The padded Records list their keys in one order, whatever their
    sources. *)
Lemma padEntry_keys (allKeys : StrSet) (entry entry' : Obj) :
  keys (padEntry allKeys entry) = keys (padEntry allKeys entry').
Proof. unfold padEntry. now apply fold_set_keys_keys. Qed.

Lemma fold_add_NoDup (ks : list string) (s : StrSet) :
  NoDup s -> NoDup (fold_left add ks s).
Proof.
  revert s. induction ks as [|k ks IH]; intros s Hnd; cbn; [assumption|].
  apply IH. now apply NoDup_add.
Qed.

Lemma fold_add_In (ks : list string) (s : StrSet) (k : string) :
  In k (fold_left add ks s) <-> In k s \/ In k ks.
Proof.
  revert s. induction ks as [|k' ks IH]; intros s; cbn.
  - tauto.
  - rewrite IH, In_add. tauto.
Qed.

Lemma allKeys_from_NoDup (entries : list Obj) (s : StrSet) :
  NoDup s ->
  NoDup (fold_left (fun allKeys entry => fold_left add (keys entry) allKeys)
           entries s).
Proof.
  revert s. induction entries as [|e entries IH]; intros s Hnd; cbn;
    [assumption|]. apply IH. now apply fold_add_NoDup.
Qed.

Lemma allKeys_from_In (entries : list Obj) (s : StrSet) (k : string) :
  In k (fold_left (fun allKeys entry => fold_left add (keys entry) allKeys)
          entries s)
  <-> In k s \/ exists e, In e entries /\ In k (keys e).
Proof.
  revert s. induction entries as [|e entries IH]; intros s; cbn.
  - split; [auto|]. intros [H|[e [[] _]]]. exact H.
  - rewrite IH, fold_add_In. split.
    + intros [[H|H]|[e' [H1 H2]]]; eauto.
    + intros [H|[e' [[<-|H1] H2]]]; eauto.
Qed.

Lemma allKeysOf_NoDup (entries : list Obj) : NoDup (allKeysOf entries).
Proof. apply allKeys_from_NoDup. constructor. Qed.

Lemma allKeysOf_In (entries : list Obj) (k : string) :
  In k (allKeysOf entries) <-> exists e, In e entries /\ In k (keys e).
Proof.
  unfold allKeysOf. rewrite allKeys_from_In. split; [|auto].
  now intros [[]|H].
Qed.

Lemma mergeEntries_unfold (entries : list Obj) :
  mergeEntries entries
  = map (padEntry (allKeysOf (removeDuplicates entries)))
      (removeDuplicates entries).
Proof. reflexivity. Qed.

Lemma Forall2_map_r {A B : Type} (R : A -> B -> Prop) (f : A -> B)
    (l : list A) :
  (forall x, In x l -> R x (f x)) -> Forall2 R l (map f l).
Proof.
  induction l as [|x l IH]; cbn; intros H; constructor; auto.
Qed.

(** A read of a key that [Object.prototype] does not hold finds the own
    property or nothing. *)
Lemma read_own (k : string) (o : Obj) :
  inheritedName k = false -> read k o = option_map Data (get k o).
Proof.
  unfold read, inheritedName. destruct (get k o); [reflexivity|].
  now destruct (inherited k).
Qed.

Lemma cell_or_empty_read_record (k : string) (source : Obj) :
  isRecord source = true -> inheritedName k = false ->
  cell_or_empty (read k source)
  = Data (match get k source with Some v => v | None => JStr "" end).
Proof.
  intros Hrec Hk. rewrite read_own by exact Hk.
  pose proof (isRecord_get source k Hrec) as Hget.
  destruct (get k source) as [v|]; [|reflexivity].
  cbn [option_map cell_or_empty]. pose proof (or_empty_string (Some v) Hget) as Hv.
  cbn [or_empty] in Hv. destruct (truthy v); congruence.
Qed.

(** C2. Where the schema has a key that is named like a member of
    [Object.prototype] and a Record lacks it, the merger does not
    substitute the empty string: the read finds the inherited function,
    and the output Record holds it. A key with any other name is padded
    with the empty string. *)
Theorem mergeEntries_pads_with_inherited_function :
  mergeEntries [[("constructor", JStr "x")]; [("name", JStr "y")]]
  = [[("constructor", Data (JStr "x")); ("name", Data (JStr ""))];
     [("constructor", Method "constructor"); ("name", Data (JStr "y"))]] /\
  mergeEntries [[("builder", JStr "x")]; [("name", JStr "y")]]
  = [[("builder", Data (JStr "x")); ("name", Data (JStr ""))];
     [("builder", Data (JStr "")); ("name", Data (JStr "y"))]] /\
  extractKeyValuePairs ("constructor: x" ++ nl ++ nl ++ "name: y")%string
  = [[("constructor", JStr "x")]; [("name", JStr "y")]] /\
  parseDocument (Text ("constructor: x" ++ nl ++ nl ++ "name: y")%string) false
  = Resolved
      [[("constructor", Data (JStr "x")); ("name", Data (JStr ""))];
       [("constructor", Method "constructor"); ("name", Data (JStr "y"))]].
Proof. repeat split; vm_compute; reflexivity. Qed.

(** X5. Every output Record of the merger has exactly the keys of
    SchemaUnion (the keys of the Records that survive deduplication) other
    than [__proto__], each once and in the same order in every output
    Record, and holds under each of them what [entry[key] || ''] gives for
    its source Record: for a Record and a key that is not named like a
    member of [Object.prototype], the value of the source Record, or the
    empty string where the source Record lacks the key. *)
Theorem mergeEntries_schema_complete (entries : list Obj) :
  let survivors := removeDuplicates entries in
  let SchemaUnion := allKeysOf survivors in
  (forall k, In k SchemaUnion <-> exists e, In e survivors /\ In k (keys e)) /\
  Forall2
    (fun source out =>
       NoDup (keys out) /\
       (forall k, In k (keys out)
                  <-> In k SchemaUnion /\ k <> "__proto__"%string) /\
       (forall k, In k (keys out) ->
          get k out = Some (cell_or_empty (read k source))) /\
       (forall k, In k (keys out) ->
          isRecord source = true -> inheritedName k = false ->
          get k out
          = Some (Data (match get k source with
                        | Some v => v
                        | None => JStr ""
                        end))))
    survivors (mergeEntries entries) /\
  (forall out out',
     In out (mergeEntries entries) -> In out' (mergeEntries entries) ->
     keys out = keys out').
Proof.
  intros survivors SchemaUnion.
  split; [apply allKeysOf_In|]. split.
  - rewrite mergeEntries_unfold. fold survivors. fold SchemaUnion.
    apply Forall2_map_r. intros source Hin.
    assert (Hkeys : forall k, In k (keys (padEntry SchemaUnion source))
                              <-> In k SchemaUnion /\ k <> "__proto__"%string).
    { intros k. unfold padEntry. rewrite fold_set_keys. cbn. tauto. }
    assert (Hget : forall k, In k (keys (padEntry SchemaUnion source)) ->
              get k (padEntry SchemaUnion source)
              = Some (cell_or_empty (read k source))).
    { intros k Hk. apply Hkeys in Hk as [Hk Hproto]. unfold padEntry.
      apply (fold_set_get (fun key => cell_or_empty (read key source)));
        [exact Hproto | now left]. }
    split; [|split; [exact Hkeys|split; [exact Hget|]]].
    + unfold padEntry. apply fold_set_NoDup. constructor.
    + intros k Hk Hrec Hname. rewrite Hget by exact Hk.
      now rewrite cell_or_empty_read_record.
  - intros out out' Hout Hout'. rewrite mergeEntries_unfold in Hout, Hout'.
    apply in_map_iff in Hout as [e [<- _]].
    apply in_map_iff in Hout' as [e' [<- _]]. apply padEntry_keys.
Qed.

(** C3, as stated, fails: two Records with the same fields in a different
    order are both kept, and their padded forms are identical. *)
Lemma mergeEntries_keeps_reordered_duplicate :
  let entries := [[("a", JStr "1"); ("b", JStr "2")];
                  [("b", JStr "2"); ("a", JStr "1")]] in
  mergeEntries entries
  = [[("a", Data (JStr "1")); ("b", Data (JStr "2"))];
     [("a", Data (JStr "1")); ("b", Data (JStr "2"))]]
  /\ ~ NoDup (mergeEntries entries).
Proof.
  assert (H : mergeEntries [[("a", JStr "1"); ("b", JStr "2")];
                            [("b", JStr "2"); ("a", JStr "1")]]
              = [[("a", Data (JStr "1")); ("b", Data (JStr "2"))];
                 [("a", Data (JStr "1")); ("b", Data (JStr "2"))]])
    by (vm_compute; reflexivity).
  cbv zeta. split; [exact H|]. rewrite H.
  intros Hnd. inversion Hnd as [|? ? Hnotin _]. apply Hnotin. now left.
Qed.

Lemma removeDuplicates_keeps_every_record (entries : list Obj) (e : Obj) :
  forallb isRecord entries = true ->
  In e entries <-> In e (removeDuplicates entries).
Proof.
  intros Hrec. rewrite forallb_forall in Hrec. split.
  - intros Hin.
    destruct (removeDuplicates_from_covers [] entries e Hin) as [Hseen|Hres];
      [discriminate|].
    apply in_map_iff in Hres as [e' [Heq He']].
    pose proof (proj1 (removeDuplicates_from_In _ _ _ He')) as Hin'.
    rewrite <- (serialise_inj e' e (Hrec e' Hin') (Hrec e Hin) Heq).
    exact He'.
  - intros Hin. now apply removeDuplicates_from_In in Hin.
Qed.

Lemma duplicates_In (earlier : list Obj) (e : Obj) :
  forallb isRecord earlier = true -> isRecord e = true ->
  duplicates earlier e = true <-> In e earlier.
Proof.
  intros Hrec He. rewrite forallb_forall in Hrec.
  unfold duplicates. rewrite existsb_exists. split.
  - intros [e' [Hin Heq]]. apply String.eqb_eq in Heq.
    now rewrite <- (serialise_inj e' e (Hrec e' Hin) He Heq).
  - intros Hin. exists e. split; [exact Hin | apply String.eqb_refl].
Qed.

(** C3, amended. Deduplication runs before padding and compares
    serialisations, which for Records means the same keys in the same order
    with the same values: of the input Records that share a serialisation
    exactly one survives, no two survivors share a serialisation or are
    identical, every input Record is among the survivors, and the merger
    emits one padded Record per survivor. *)
Theorem removeDuplicates_by_serialisation (entries : list Obj) :
  NoDup (map serialise (removeDuplicates entries)) /\
  NoDup (removeDuplicates entries) /\
  (forall e, In e entries ->
     count_occ string_dec (map serialise (removeDuplicates entries))
       (serialise e) = 1) /\
  (forall e1 e2, isRecord e1 = true -> isRecord e2 = true ->
     serialise e1 = serialise e2 -> e1 = e2) /\
  (forallb isRecord entries = true ->
   forall e, In e entries <-> In e (removeDuplicates entries)) /\
  mergeEntries entries
  = map (padEntry (allKeysOf (removeDuplicates entries)))
      (removeDuplicates entries).
Proof.
  assert (Hnd : NoDup (map serialise (removeDuplicates entries)))
    by apply removeDuplicates_from_NoDup.
  split; [exact Hnd|]. split; [now apply NoDup_map_inv in Hnd|].
  split; [|split; [exact serialise_inj|split; [|reflexivity]]].
  - intros e Hin. apply count_occ_NoDup_In; [exact Hnd|].
    destruct (removeDuplicates_from_covers [] entries e Hin) as [Hseen|Hres];
      [discriminate|exact Hres].
  - intros Hrec e. now apply removeDuplicates_keeps_every_record.
Qed.

(** C10. The merger emits one padded Record per survivor of the
    deduplication, in the survivors' order, and the survivors are the first
    occurrences in input order: an entry is kept unless an entry before it
    is its duplicate (has its serialisation; for Records, is the same
    Record), so that appending an entry to the input appends it to the
    survivors or changes nothing. *)
Theorem mergeEntries_keeps_first_occurrences :
  (forall entries,
     mergeEntries entries
     = map (padEntry (allKeysOf (removeDuplicates entries)))
         (removeDuplicates entries)) /\
  (forall entries, removeDuplicates entries = firstOccurrences [] entries) /\
  (forall entries e,
     removeDuplicates (entries ++ [e])
     = removeDuplicates entries
       ++ (if duplicates entries e then [] else [e])) /\
  (forall earlier e,
     forallb isRecord earlier = true -> isRecord e = true ->
     duplicates earlier e = true <-> In e earlier).
Proof.
  split; [reflexivity|]. split; [|split].
  - intros entries. unfold removeDuplicates.
    now apply removeDuplicates_from_firstOccurrences.
  - intros entries e. unfold removeDuplicates.
    now rewrite removeDuplicates_from_snoc.
  - exact duplicates_In.
Qed.

(** ** extractKeyValuePairs *)








(** ** parseDocument *)

(** C1, as stated, fails: on the text [42] neither extractor finds a Record,
    yet the text is valid JSON and parseDocument returns a Record for it. *)
Lemma parseDocument_accepts_scalar_json :
  findJsonObjects "42" = Some [] /\
  extractKeyValuePairs "42" = [] /\
  parseDocument (Text "42") false = Resolved [[("value", Data (JStr "42"))]].
Proof. split; [|split]; vm_compute; reflexivity. Qed.

(** C1, amended. When both extractors yield zero Records on the text of the
    input, parseDocument rejects with the remediation message, unless the
    input is a raw text whose strict parse and normalisation return at
    least one Record, which are then merged and returned without the
    extractors; an input without a text (a document that cannot be
    decoded, an input of the other kind) is rejected as well; that
    four-line message is the only rejection there is. *)
Theorem parseDocument_rejects_when_nothing_found
    (input : Input) (isWordDoc : bool) (text : string) :
  inputText input isWordDoc = Some text ->
  extractEntries text = Done [] ->
  (isWordDoc = false ->
   parseStrictly text = Done [] \/ exists e, parseStrictly text = Thrown e) ->
  parseDocument input isWordDoc = Rejected remediationMessage
  /\ lineCount remediationMessage = 4
  /\ (forall e es,
        parseStrictly text = Done (e :: es) ->
        parseDocument (Text text) false = Resolved (mergeEntries (e :: es)))
  /\ (forall input' isWordDoc',
        inputText input' isWordDoc' = None ->
        parseDocument input' isWordDoc' = Rejected remediationMessage)
  /\ (forall input' isWordDoc',
        match parseDocument input' isWordDoc' with
        | Rejected message => message = remediationMessage
        | _ => True
        end).
Proof.
  intros Hinput Hext Hstrict. split; [|split; [|split; [|split]]].
  - unfold parseDocument, gatherEntries. unfold inputText in Hinput.
    destruct isWordDoc.
    + destruct input as [t|[t|]]; try discriminate.
      injection Hinput as ->. now rewrite Hext.
    + destruct input as [t|d]; [|destruct d; discriminate].
      injection Hinput as ->.
      destruct (Hstrict eq_refl) as [H|[e H]]; rewrite H; [reflexivity|].
      now rewrite Hext.
  - reflexivity.
  - intros e es H. unfold parseDocument, gatherEntries. now rewrite H.
  - intros [t|[t|]] [|]; try discriminate; reflexivity.
  - intros input' isWordDoc'. unfold parseDocument.
    destruct (gatherEntries input' isWordDoc') as [[|e es]|m|]; exact I || reflexivity.
Qed.

Lemma parseDocument_rejects_when_nothing_found_witness :
  inputText (Text "[ ]") false = Some "[ ]"%string /\
  extractEntries "[ ]" = Done [] /\
  parseStrictly "[ ]" = Done [] /\
  parseDocument (Text "[ ]") false = Rejected remediationMessage.
Proof.
  assert (H1 : inputText (Text "[ ]") false = Some "[ ]"%string)
    by reflexivity.
  assert (H2 : extractEntries "[ ]" = Done []) by (vm_compute; reflexivity).
  assert (H3 : parseStrictly "[ ]" = Done []) by (vm_compute; reflexivity).
  split; [exact H1|]. split; [exact H2|]. split; [exact H3|].
  exact (proj1 (parseDocument_rejects_when_nothing_found
                  (Text "[ ]") false "[ ]" H1 H2 (fun _ => or_introl H3))).
Defined.

(** *** Every emitted value is a string *)

Lemma processLine_record (st : Obj * bool) (line : string) :
  isRecord (fst st) = true -> isRecord (fst (processLine st line)) = true.
Proof.
  intros Hst. unfold processLine.
  destruct (match_ keyValuePattern line) as [caps|]; auto.
  destruct (nonempty _ && nonempty _); auto. cbn.
  now apply isRecord_set.
Qed.

Lemma fold_processLine_record (lines : list string) (st : Obj * bool) :
  isRecord (fst st) = true ->
  isRecord (fst (fold_left processLine lines st)) = true.
Proof.
  revert st. induction lines as [|line lines IH]; intros st Hst; cbn; auto.
  apply IH. now apply processLine_record.
Qed.

Lemma processBlock_records (block : string) :
  forallb isRecord (processBlock block) = true.
Proof.
  unfold processBlock.
  pose proof (fold_processLine_record (linesOf block) ([], false) eq_refl) as H.
  destruct (fold_left processLine (linesOf block) ([], false))
    as [currentEntry hasValidPair].
  destruct hasValidPair; cbn [forallb]; [|reflexivity].
  cbn [fst] in H. now rewrite H.
Qed.

Lemma extractKeyValuePairs_records (text : string) :
  forallb isRecord (extractKeyValuePairs text) = true.
Proof.
  unfold extractKeyValuePairs.
  induction (blocksOf text) as [|block blocks IH]; cbn; [reflexivity|].
  now rewrite forallb_app, processBlock_records, IH.
Qed.

Lemma mapA_forallb {A B : Type} (f : A -> Attempt B) (p : B -> bool)
    (l : list A) (rs : list B) :
  (forall x y, f x = Done y -> p y = true) ->
  mapA f l = Done rs -> forallb p rs = true.
Proof.
  intros Hf. revert rs. induction l as [|x l IH]; cbn; intros rs H.
  - now injection H as <-.
  - destruct (f x) as [y| |] eqn:Hy; try discriminate.
    destruct (mapA f l) as [ys| |]; try discriminate.
    injection H as <-. cbn. now rewrite (Hf x y Hy), IH.
Qed.

Lemma normalizeEntry_record (entry : JValue) (r : Obj) :
  normalizeEntry entry = Done r -> isRecord r = true.
Proof.
  unfold normalizeEntry.
  destruct (negb (typeof_object entry) || is_null entry).
  - destruct (String_ entry) as [text|]; [|discriminate].
    intros H. now injection H as <-.
  - destruct (flattenObject entry "") as [flattened|] eqn:Hfl; [|discriminate].
    intros H. injection H as <-. now apply flattenObject_flat in Hfl as [_ H].
Qed.

Lemma normalizeData_records (data : JValue) (rs : list Obj) :
  tabular data = false ->
  normalizeData data = Done rs -> forallb isRecord rs = true.
Proof.
  unfold tabular, normalizeData.
  set (l := match data with JArr l => l | _ => [data] end).
  intros Htab H.
  assert (Hmap : mapA normalizeEntry l = Done rs).
  { destruct l as [|[] l']; try exact H. discriminate. }
  eapply mapA_forallb; [|exact Hmap]. exact normalizeEntry_record.
Qed.

(** What the merger puts under a key that is not named like a member of
    [Object.prototype] is a string, when its sources are Records. *)
Lemma mergeEntries_strings (entries : list Obj) :
  forallb isRecord entries = true ->
  forall out k c,
    In out (mergeEntries entries) -> In (k, c) out ->
    inheritedName k = false -> isString c = true.
Proof.
  intros Hrec out k c Hout Hin Hk. rewrite forallb_forall in Hrec.
  rewrite mergeEntries_unfold in Hout.
  apply in_map_iff in Hout as [source [<- Hsource]].
  apply removeDuplicates_from_In in Hsource as [Hsource _].
  unfold padEntry in Hin.
  apply (fold_set_pairs (fun key => cell_or_empty (read key source))) in Hin;
    [|intros ? ? []].
  rewrite Hin, cell_or_empty_read_record by auto.
  pose proof (isRecord_get source k (Hrec source Hsource)) as Hget.
  destruct (get k source) as [v|]; [|reflexivity].
  now destruct v.
Qed.

Lemma extractEntries_records (text : string) (entries : list Obj) :
  match findJsonObjects text with
  | Some jsonEntries => tabular (JArr jsonEntries)
  | None => false
  end = false ->
  extractEntries text = Done entries -> forallb isRecord entries = true.
Proof.
  unfold extractEntries.
  destruct (findJsonObjects text) as [[|j js]|]; intros Htab H;
    try discriminate.
  - injection H as <-. apply extractKeyValuePairs_records.
  - destruct (normalizeData (JArr (j :: js))) as [normalized| |] eqn:Hn;
      try discriminate.
    injection H as <-. rewrite forallb_app, extractKeyValuePairs_records.
    now rewrite (normalizeData_records _ _ Htab Hn).
Qed.

(** C4, as stated, fails: a JSON string value is emitted as it is, blanks
    at its ends included. *)
Lemma parseDocument_keeps_outer_blanks :
  let text := ("{" ++ dquote ++ "a" ++ dquote ++ ":" ++ dquote ++ " x "
               ++ dquote ++ "}")%string in
  parseDocument (Text text) false = Resolved [[("a", Data (JStr " x "))]]
  /\ trim " x " <> " x "%string.
Proof. split; [vm_compute; reflexivity | discriminate]. Qed.

(** C4, amended. Outside the table branch of the normalizer, the Records
    that the normalizer returns for any parsed value and the Records of the
    key/value extractor hold strings only, and the merger keeps it so under
    every key that is not named like a member of [Object.prototype]: on
    every run of parseDocument that does not take the table branch, every
    value of every such field of every Record returned is a string, never
    [null], an object, an array, a number or a boolean. *)
Theorem parseDocument_emits_strings :
  (forall data rs,
     tabular data = false -> normalizeData data = Done rs ->
     forallb isRecord rs = true) /\
  (forall text, forallb isRecord (extractKeyValuePairs text) = true) /\
  (forall entries,
     forallb isRecord entries = true ->
     forall out k c,
       In out (mergeEntries entries) -> In (k, c) out ->
       inheritedName k = false -> isString c = true) /\
  (forall input isWordDoc records,
     tableBranch input isWordDoc = false ->
     parseDocument input isWordDoc = Resolved records ->
     forall r k c,
       In r records -> In (k, c) r -> inheritedName k = false ->
       isString c = true).
Proof.
  split; [exact normalizeData_records|].
  split; [exact extractKeyValuePairs_records|].
  split; [exact mergeEntries_strings|].
  intros input isWordDoc records Htab Hres.
  assert (Hgather : exists entries,
             gatherEntries input isWordDoc = Done entries
             /\ records = mergeEntries entries).
  { unfold parseDocument in Hres.
    destruct (gatherEntries input isWordDoc) as [[|e es]|m|];
      try discriminate.
    injection Hres as <-. eauto. }
  destruct Hgather as [entries [Hgather ->]].
  apply mergeEntries_strings.
  unfold gatherEntries in Hgather. unfold tableBranch in Htab.
  destruct isWordDoc.
  - destruct input as [t|[t|]]; try discriminate.
    eapply extractEntries_records; eassumption.
  - destruct input as [t|d]; [|discriminate].
    unfold parseStrictly in Hgather.
    destruct (JSON_parse t) as [jsonData| |]; [| |discriminate].
    + apply orb_false_iff in Htab as [Htab1 Htab2].
      destruct (normalizeData jsonData) as [normalized| |] eqn:Hn;
        [| |discriminate].
      * injection Hgather as <-. eapply normalizeData_records; eassumption.
      * eapply extractEntries_records; eassumption.
    + eapply extractEntries_records; eassumption.
Qed.

Lemma parseDocument_emits_strings_witness :
  tableBranch
    (Text ("{" ++ dquote ++ "a" ++ dquote ++ ":[1.50,true],"
           ++ dquote ++ "b" ++ dquote ++ ":null}")%string) false = false /\
  parseDocument
    (Text ("{" ++ dquote ++ "a" ++ dquote ++ ":[1.50,true],"
           ++ dquote ++ "b" ++ dquote ++ ":null}")%string) false
  = Resolved [[("a", Data (JStr "1.5, true")); ("b", Data (JStr ""))]] /\
  isString (Data (JStr "1.5, true")) = true.
Proof.
  set (text := ("{" ++ dquote ++ "a" ++ dquote ++ ":[1.50,true],"
                ++ dquote ++ "b" ++ dquote ++ ":null}")%string).
  assert (H1 : tableBranch (Text text) false = false)
    by (vm_compute; reflexivity).
  assert (H2 : parseDocument (Text text) false
               = Resolved [[("a", Data (JStr "1.5, true"));
                            ("b", Data (JStr ""))]])
    by (vm_compute; reflexivity).
  split; [exact H1|]. split; [exact H2|].
  exact (proj2 (proj2 (proj2 parseDocument_emits_strings))
           (Text text) false _ H1 H2
           [("a", Data (JStr "1.5, true")); ("b", Data (JStr ""))] "a"%string
           (Data (JStr "1.5, true")) (or_introl eq_refl) (or_introl eq_refl)
           eq_refl).
Defined.

(** ** Texts without structure *)

Lemma length_append (s1 s2 : string) :
  String.length (s1 ++ s2)%string = String.length s1 + String.length s2.
Proof. induction s1 as [|c s1 IH]; cbn; [reflexivity|]. now rewrite IH. Qed.

Lemma advances_refl pos rest : advances pos rest pos rest.
Proof. exists ""%string. split; [reflexivity | cbn; lia]. Qed.

Lemma advances_trans pos rest pos1 rest1 pos2 rest2 :
  advances pos rest pos1 rest1 -> advances pos1 rest1 pos2 rest2 ->
  advances pos rest pos2 rest2.
Proof.
  intros [c1 [-> ->]] [c2 [-> ->]]. exists (c1 ++ c2)%string. split.
  - now rewrite append_assoc.
  - rewrite length_append. lia.
Qed.

Lemma advances_step pos c rest : advances pos (String c rest) (S pos) rest.
Proof. exists (String c ""). split; [reflexivity | cbn; lia]. Qed.

Lemma star_loop_calls m greedy fuel :
  callsContinuation m -> callsContinuation (star_loop m greedy fuel).
Proof.
  intros Hm. induction fuel as [|fuel IH]; intros pos rest caps k x H.
  - cbn in H. exists pos, rest, caps. split; [exact H | apply advances_refl].
  - cbn [star_loop] in H.
    assert (Hagain :
              m pos rest caps
                (fun pos' rest' caps' =>
                   if (pos' =? pos)%nat then None
                   else star_loop m greedy fuel pos' rest' caps' k) = Some x ->
              exists pos' rest' caps',
                k pos' rest' caps' = Some x /\ advances pos rest pos' rest').
    { intros Ha. apply Hm in Ha as (pos1 & rest1 & caps1 & Hk & Hadv).
      destruct (pos1 =? pos)%nat; [discriminate|].
      apply IH in Hk as (pos2 & rest2 & caps2 & Hk & Hadv2).
      exists pos2, rest2, caps2. split; [exact Hk|].
      eapply advances_trans; eassumption. }
    destruct greedy.
    + destruct (m pos rest caps _) as [y|] eqn:Ha.
      * injection H as <-. now apply Hagain.
      * exists pos, rest, caps. split; [exact H | apply advances_refl].
    + destruct (k pos rest caps) as [y|] eqn:Hk.
      * injection H as <-. exists pos, rest, caps.
        split; [exact Hk | apply advances_refl].
      * now apply Hagain.
Qed.

(** Every pattern hands to its continuation a later position of the same
    text. *)
Lemma rmatch_calls (r : regex) : callsContinuation (rmatch r).
Proof.
  induction r as [p| |r1 IH1 r2 IH2|r1 IH1 r2 IH2|g r IH|n r IH| |];
    intros pos rest caps k x H; cbn [rmatch] in H.
  - destruct rest as [|c rest']; [discriminate|].
    destruct (p c); [|discriminate].
    exists (S pos), rest', caps. split; [exact H | apply advances_step].
  - exists pos, rest, caps. split; [exact H | apply advances_refl].
  - apply IH1 in H as (pos1 & rest1 & caps1 & H & Hadv1).
    apply IH2 in H as (pos2 & rest2 & caps2 & H & Hadv2).
    exists pos2, rest2, caps2. split; [exact H|].
    eapply advances_trans; eassumption.
  - destruct (rmatch r1 pos rest caps k) as [y|] eqn:H1.
    + injection H as <-. now apply IH1 in H1.
    + now apply IH2 in H.
  - now apply (star_loop_calls _ g _ IH) in H.
  - apply IH in H as (pos1 & rest1 & caps1 & H & Hadv1).
    eexists pos1, rest1, _. split; [exact H | exact Hadv1].
  - destruct (pos =? 0)%nat; [|discriminate].
    exists pos, rest, caps. split; [exact H | apply advances_refl].
  - destruct rest; [|discriminate].
    exists pos, ""%string, caps. split; [exact H | apply advances_refl].
Qed.

Lemma allChars_append p (s1 s2 : string) :
  allChars p (s1 ++ s2)%string = allChars p s1 && allChars p s2.
Proof.
  induction s1 as [|c s1 IH]; cbn; [reflexivity|].
  now rewrite IH, andb_assoc.
Qed.

Lemma allChars_advances p pos rest pos' rest' :
  advances pos rest pos' rest' -> allChars p rest = true ->
  allChars p rest' = true.
Proof.
  intros [consumed [-> _]] H. rewrite allChars_append in H.
  now apply andb_true_iff in H.
Qed.

Lemma match_at_jsonRegex_opening pos c rest :
  noOpening c = true -> match_at jsonRegex pos (String c rest) = None.
Proof.
  intros Hc. unfold match_at, jsonRegex. cbn [rmatch].
  unfold noOpening, none_of, one_of in Hc. cbn [existsb] in Hc.
  rewrite orb_false_r in Hc. apply negb_true_iff in Hc.
  apply orb_false_iff in Hc as [H1 H2].
  unfold is_code. now rewrite H1, H2.
Qed.

Lemma matchAll_from_noOpening (rest : string) :
  allChars noOpening rest = true ->
  forall pos skip, matchAll_from jsonRegex pos rest skip = [].
Proof.
  induction rest as [|c rest IH]; intros Hall pos skip.
  - cbn [matchAll_from]. destruct skip; reflexivity.
  - cbn [allChars] in Hall. apply andb_true_iff in Hall as [Hc Hall].
    cbn [matchAll_from]. rewrite (match_at_jsonRegex_opening pos c rest Hc).
    destruct skip; apply IH; exact Hall.
Qed.

(** A text without an opening brace or bracket holds no candidate span. *)
Lemma findJsonObjects_noOpening (text : string) :
  allChars noOpening text = true -> findJsonObjects text = Some [].
Proof.
  intros H. unfold findJsonObjects, matchAll.
  now rewrite matchAll_from_noOpening.
Qed.

Lemma match_at_keyValuePattern_separator pos rest :
  allChars noSeparator rest = true -> match_at keyValuePattern pos rest = None.
Proof.
  intros Hall. destruct (match_at keyValuePattern pos rest) as [x|] eqn:H;
    [exfalso | reflexivity].
  unfold match_at, keyValuePattern in H. cbn [rmatch] in H.
  destruct (pos =? 0)%nat; [|discriminate].
  apply rmatch_calls in H as (pos1 & rest1 & caps1 & H & Hadv).
  cbn [rmatch] in H.
  pose proof (allChars_advances _ _ _ _ _ Hadv Hall) as Hall1.
  destruct rest1 as [|c rest1]; [discriminate|].
  cbn [allChars] in Hall1. apply andb_true_iff in Hall1 as [Hc _].
  unfold noSeparator, none_of in Hc. apply negb_true_iff in Hc.
  rewrite Hc in H. discriminate.
Qed.

Lemma exec_from_keyValuePattern_separator (rest : string) :
  allChars noSeparator rest = true ->
  forall pos, exec_from keyValuePattern pos rest = None.
Proof.
  induction rest as [|c rest IH]; intros Hall pos; cbn [exec_from];
    rewrite (match_at_keyValuePattern_separator pos _ Hall); [reflexivity|].
  cbn [allChars] in Hall. apply andb_true_iff in Hall as [_ Hall]. now apply IH.
Qed.

(** A line without a colon or an equals sign is no key/value pair. *)
Lemma processLine_separator (st : Obj * bool) (line : string) :
  allChars noSeparator line = true -> processLine st line = st.
Proof.
  intros Hall. unfold processLine, match_.
  now rewrite exec_from_keyValuePattern_separator.
Qed.

Lemma split_from_allChars p r (rest : string) :
  allChars p rest = true ->
  forall pos skip cur,
    allChars p cur = true ->
    Forall (fun piece => allChars p piece = true)
      (split_from r pos rest skip cur).
Proof.
  induction rest as [|c rest IH]; intros Hall pos skip cur Hcur;
    cbn [split_from].
  - now constructor.
  - cbn [allChars] in Hall. apply andb_true_iff in Hall as [Hc Hall].
    assert (Hone : allChars p (String c "") = true) by (cbn; now rewrite Hc).
    destruct skip as [|skip]; [|now apply IH].
    destruct (match_at r pos (String c rest)) as [[e caps]|].
    + destruct (e =? pos)%nat.
      * destruct (String.eqb cur ""); [now apply IH|].
        constructor; [exact Hcur | now apply IH].
      * constructor; [exact Hcur | now apply IH].
    + apply IH; [exact Hall|]. rewrite allChars_append. now rewrite Hcur, Hone.
Qed.

Lemma split_allChars p r (s : string) :
  allChars p s = true ->
  Forall (fun piece => allChars p piece = true) (split r s).
Proof.
  intros Hall. unfold split. destruct s as [|c s].
  - destruct (match_at r 0 ""); repeat constructor.
  - now apply split_from_allChars.
Qed.

Lemma Forall_filter {A : Type} (P : A -> Prop) (f : A -> bool) (l : list A) :
  Forall P l -> Forall P (filter f l).
Proof.
  induction 1 as [|x l Hx _ IH]; cbn; [constructor|].
  destruct (f x); [constructor|]; assumption.
Qed.

Lemma processBlock_separator (block : string) :
  allChars noSeparator block = true -> processBlock block = [].
Proof.
  intros Hall. unfold processBlock.
  assert (Hlines : Forall (fun line => allChars noSeparator line = true)
                     (linesOf block))
    by (apply Forall_filter, split_allChars, Hall).
  assert (Hfold : forall st, fold_left processLine (linesOf block) st = st).
  { induction Hlines as [|line lines Hline _ IH]; intros st; cbn;
      [reflexivity|]. now rewrite processLine_separator, IH. }
  now rewrite Hfold.
Qed.

(** A text without a colon or an equals sign holds no key/value pair. *)
Lemma extractKeyValuePairs_separator (text : string) :
  allChars noSeparator text = true -> extractKeyValuePairs text = [].
Proof.
  intros Hall. unfold extractKeyValuePairs.
  assert (Hblocks : Forall (fun block => allChars noSeparator block = true)
                      (blocksOf text))
    by (apply Forall_filter, split_allChars, Hall).
  induction Hblocks as [|block blocks Hblock _ IH]; cbn; [reflexivity|].
  now rewrite processBlock_separator, IH.
Qed.

Lemma allChars_and p q (s : string) :
  allChars (fun c => p c && q c) s = allChars p s && allChars q s.
Proof.
  induction s as [|c s IH]; cbn; [reflexivity|]. rewrite IH.
  destruct (p c), (q c), (allChars p s), (allChars q s); reflexivity.
Qed.

Lemma allChars_skip_ws p (s : string) :
  allChars p s = true -> allChars p (skip_ws s) = true.
Proof.
  induction s as [|c s IH]; cbn [skip_ws allChars]; [reflexivity|].
  intros H. destruct (is_ws c); [|exact H].
  apply andb_true_iff in H as [_ H]. now apply IH.
Qed.

(** A JSON text that starts with no opening brace or bracket denotes a
    scalar. *)
Lemma parse_value_scalar (fuel : nat) (s : string) (v : JValue)
    (rest : string) :
  allChars noOpening s = true ->
  parse_value fuel s = Parsed (v, rest) -> isScalar v = true.
Proof.
  intros Hall H. destruct fuel as [|fuel]; [discriminate|].
  destruct s as [|c s]; [discriminate|]. cbn [parse_value] in H.
  cbn [allChars] in Hall. apply andb_true_iff in Hall as [Hc _].
  unfold noOpening, none_of, one_of in Hc. cbn [existsb] in Hc.
  rewrite orb_false_r in Hc. apply negb_true_iff in Hc.
  apply orb_false_iff in Hc as [H123 H91].
  unfold is_code in H. rewrite H123, H91 in H.
  destruct (code c =? 34)%nat.
  { destruct (parse_string_body s) as [[body rest']| |]; try discriminate.
    cbn in H. now injection H as <- _. }
  destruct (code c =? 116)%nat.
  { destruct (expect "true" (String c s)); [|discriminate].
    now injection H as <- _. }
  destruct (code c =? 102)%nat.
  { destruct (expect "false" (String c s)); [|discriminate].
    now injection H as <- _. }
  destruct (code c =? 110)%nat.
  { destruct (expect "null" (String c s)); [|discriminate].
    now injection H as <- _. }
  unfold parse_number in H.
  destruct (match String c s with
            | String c0 s' => if is_code 45 c0 then (true, s') else (false, String c s)
            | EmptyString => (false, String c s)
            end) as [negative s1].
  destruct (take_digits s1) as [ds rest0].
  destruct ds as [|d ds']; [discriminate|].
  destruct (is_code 48 d && nonempty ds'); [discriminate|].
  destruct (parse_fraction rest0) as [[fraction rest1]| |]; try discriminate.
  cbn [bindP] in H.
  destruct (parse_exponent rest1) as [[exponent rest2]| |]; try discriminate.
  cbn [bindP] in H. now injection H as <- _.
Qed.

Lemma JSON_parse_scalar (text : string) (v : JValue) :
  allChars noOpening text = true ->
  JSON_parse text = Parsed v -> isScalar v = true.
Proof.
  intros Hall. unfold JSON_parse.
  destruct (parse_value _ (skip_ws text)) as [[v' rest]| |] eqn:Hv;
    try discriminate.
  cbn [bindP]. destruct (skip_ws rest); [|discriminate].
  intros H. injection H as <-.
  eapply parse_value_scalar; [|exact Hv]. now apply allChars_skip_ws.
Qed.

(** A scalar becomes the one Record with the field [value]. *)
Lemma mergeEntries_scalar (v : JValue) :
  isScalar v = true ->
  normalizeData v = Done [[("value", JStr (textOf v))]] /\
  mergeEntries [[("value", JStr (textOf v))]]
  = [[("value", Data (JStr (textOf v)))]].
Proof.
  intros Hv. split.
  - destruct v as [|[]| | | |]; try discriminate; reflexivity.
  - unfold mergeEntries, removeDuplicates. cbn [removeDuplicates_from has existsb].
    cbn [map allKeysOf fold_left keys fst]. unfold add at 1. cbn [has existsb app].
    unfold padEntry. cbn [fold_left]. unfold read. cbn [get].
    rewrite String.eqb_refl. cbn [cell_or_empty truthy].
    destruct (String.eqb_spec (textOf v) "") as [->|Hne]; reflexivity.
Qed.

(** X6. A text with no opening brace or bracket, no colon and no equals
    sign gives neither extractor anything to find: a document with such a
    text is rejected, and such a raw text is rejected unless it is, as a
    whole, the JSON text of a scalar, which is returned as the one Record
    with the field [value]. *)
Theorem parseDocument_rejects_plain_text (text : string) :
  allChars plainChar text = true ->
  findJsonObjects text = Some [] /\
  extractKeyValuePairs text = [] /\
  parseDocument (Document (Some text)) true = Rejected remediationMessage /\
  parseDocument (Text text) false
  = match JSON_parse text with
    | Parsed v => Resolved [[("value", Data (JStr (textOf v)))]]
    | SyntaxError => Rejected remediationMessage
    | Unmodelled => NotModelled
    end.
Proof.
  intros Hall. unfold plainChar in Hall. rewrite allChars_and in Hall.
  apply andb_true_iff in Hall as [Hopen Hsep].
  pose proof (findJsonObjects_noOpening text Hopen) as Hjson.
  pose proof (extractKeyValuePairs_separator text Hsep) as Hkv.
  assert (Hext : extractEntries text = Done [])
    by (unfold extractEntries; now rewrite Hjson, Hkv).
  split; [exact Hjson|]. split; [exact Hkv|]. split.
  - unfold parseDocument, gatherEntries. now rewrite Hext.
  - unfold parseDocument, gatherEntries, parseStrictly.
    destruct (JSON_parse text) as [v| |] eqn:Hparse; [| |reflexivity].
    + pose proof (JSON_parse_scalar text v Hopen Hparse) as Hv.
      destruct (mergeEntries_scalar v Hv) as [-> ->]. reflexivity.
    + now rewrite Hext.
Qed.

Lemma parseDocument_rejects_plain_text_witness :
  allChars plainChar "Total due on Friday" = true /\
  parseDocument (Document (Some "Total due on Friday"%string)) true
  = Rejected remediationMessage /\
  parseDocument (Text "Total due on Friday") false
  = Rejected remediationMessage.
Proof.
  split; [reflexivity|]. split.
  - exact (proj1 (proj2 (proj2 (parseDocument_rejects_plain_text
                                  "Total due on Friday" eq_refl)))).
  - exact (proj2 (proj2 (proj2 (parseDocument_rejects_plain_text
                                  "Total due on Friday" eq_refl)))).
Defined.

(** ** What the key/value extractor stores *)

Lemma match_at_Chr p pos (rest : string) :
  match_at (Chr p) pos rest
  = match rest with
    | String c _ => if p c then Some (S pos, []) else None
    | EmptyString => None
    end.
Proof. destruct rest as [|c rest]; [reflexivity|]. cbn. now destruct (p c). Qed.

Lemma replace_from_Chr_delete p (rest : string) :
  forall pos,
    replace_from (Chr p) (always "") pos rest 0
    = keepChars (fun c => negb (p c)) rest.
Proof.
  induction rest as [|c rest IH]; intros pos; [reflexivity|].
  cbn [replace_from keepChars]. rewrite match_at_Chr.
  destruct (p c); cbn [negb].
  - replace (S pos - pos - 1) with 0 by lia.
    replace (S pos =? pos)%nat with false
      by (symmetry; apply Nat.eqb_neq; lia).
    cbn. apply IH.
  - cbn. now rewrite IH.
Qed.

(** Deleting the characters of a class keeps the others, in order. *)
Lemma replace_Chr_delete p (s : string) :
  replace (Chr p) (always "") s = keepChars (fun c => negb (p c)) s.
Proof. apply replace_from_Chr_delete. Qed.

Lemma star_loop_Chr p (fuel : nat) :
  forall pos (rest : string) caps,
    String.length rest < fuel ->
    star_loop (rmatch (Chr p)) true fuel pos rest caps
      (fun pos' _ caps' => Some (pos', caps'))
    = Some (pos + span p rest, caps).
Proof.
  induction fuel as [|fuel IH]; intros pos rest caps Hlen; [lia|].
  cbn [star_loop rmatch]. destruct rest as [|c rest]; cbn [span].
  - now rewrite Nat.add_0_r.
  - destruct (p c).
    + replace (S pos =? pos)%nat with false
        by (symmetry; apply Nat.eqb_neq; lia).
      rewrite IH by (cbn in Hlen; lia). f_equal. f_equal. lia.
    + now rewrite Nat.add_0_r.
Qed.

Lemma match_at_Plus_Chr p pos (rest : string) :
  match_at (Plus (Chr p)) pos rest
  = match span p rest with
    | O => None
    | S n => Some (pos + S n, [])
    end.
Proof.
  unfold match_at, Plus.
  destruct rest as [|c rest]; cbn [span]; [reflexivity|].
  change (rmatch (Seq (Chr p) (Star true (Chr p))) pos (String c rest) []
            (fun pos' _ caps' => Some (pos', caps')))
    with (if p c
          then star_loop (rmatch (Chr p)) true (S (String.length rest))
                 (S pos) rest [] (fun pos' _ caps' => Some (pos', caps'))
          else None).
  destruct (p c); [|reflexivity].
  rewrite star_loop_Chr by lia. f_equal. f_equal. lia.
Qed.

Lemma collapseRuns_flag p t (s : string) :
  span p s = 0 -> collapseRuns p t true s = collapseRuns p t false s.
Proof.
  destruct s as [|c s]; cbn; [reflexivity|]. now destruct (p c).
Qed.

Lemma replace_from_Plus_Chr p t (rest : string) :
  forall pos skip,
    (skip = 0 \/ span p rest = skip) ->
    replace_from (Plus (Chr p)) (always t) pos rest skip
    = collapseRuns p t (negb (skip =? 0)%nat) rest.
Proof.
  induction rest as [|c rest IH]; intros pos skip Hskip.
  - cbn [replace_from collapseRuns]. destruct skip as [|skip].
    + reflexivity.
    + reflexivity.
  - cbn [replace_from collapseRuns]. destruct skip as [|skip].
    + rewrite match_at_Plus_Chr. cbn [span Nat.eqb negb].
      destruct (p c) eqn:Hc.
      * replace (pos + S (span p rest) =? pos)%nat with false
          by (symmetry; apply Nat.eqb_neq; lia).
        replace (pos + S (span p rest) - pos - 1) with (span p rest) by lia.
        unfold always at 1. f_equal.
        rewrite IH by (right; reflexivity).
        destruct (span p rest) eqn:Hspan; cbn [Nat.eqb negb];
          [now rewrite collapseRuns_flag | reflexivity].
      * rewrite IH by (left; reflexivity). reflexivity.
    + destruct Hskip as [Hskip|Hskip]; [discriminate|].
      cbn [span] in Hskip. destruct (p c) eqn:Hc; [|discriminate].
      injection Hskip as Hskip. cbn [Nat.eqb negb pred].
      rewrite IH by (right; exact Hskip). cbn [append].
      destruct skip as [|skip]; cbn [Nat.eqb negb];
        [now rewrite collapseRuns_flag | reflexivity].
Qed.

(** Replacing the runs of a class by [t]. *)
Lemma replace_Plus_Chr p t (s : string) :
  replace (Plus (Chr p)) (always t) s = collapseRuns p t false s.
Proof. unfold replace. now rewrite replace_from_Plus_Chr by (left; reflexivity). Qed.

Lemma allChars_keepChars p (s : string) : allChars p (keepChars p s) = true.
Proof.
  induction s as [|c s IH]; cbn; [reflexivity|].
  destruct (p c) eqn:Hc; cbn; [now rewrite Hc|exact IH].
Qed.

Lemma allChars_keepChars_other p q (s : string) :
  allChars q s = true -> allChars q (keepChars p s) = true.
Proof.
  induction s as [|c s IH]; cbn; [reflexivity|].
  intros H. apply andb_true_iff in H as [Hc Hs].
  destruct (p c); cbn; [rewrite Hc|]; now apply IH.
Qed.

Lemma allChars_collapseRuns p q t (s : string) :
  (forall c, p c = false -> q c = true) ->
  allChars q t = true ->
  forall inrun, allChars q (collapseRuns p t inrun s) = true.
Proof.
  intros Hq Ht. induction s as [|c s IH]; intros inrun; cbn; [reflexivity|].
  destruct (p c) eqn:Hc.
  - rewrite allChars_append, IH. destruct inrun; cbn; [reflexivity|].
    now rewrite Ht.
  - cbn. now rewrite (Hq c Hc), IH.
Qed.

Lemma noDouble_collapseRuns p (a : ascii) (s : string) :
  p a = true ->
  forall b, noDouble p b (collapseRuns p (String a "") b s) = true.
Proof.
  intros Ha.
  induction s as [|c s IH]; intros b; cbn [collapseRuns noDouble];
    [reflexivity|].
  destruct (p c) eqn:Hc.
  - destruct b; cbn [append noDouble]; [apply IH|].
    cbn [andb negb]. rewrite Ha. apply IH.
  - cbn [noDouble]. rewrite Hc, andb_false_r. cbn [negb andb]. apply IH.
Qed.

Lemma allChars_toLowerCase p q (s : string) :
  (forall c, p c = true -> q (lower_ascii c) = true) ->
  allChars p s = true -> allChars q (toLowerCase s) = true.
Proof.
  intros Hpq. induction s as [|c s IH]; cbn; [reflexivity|].
  intros H. apply andb_true_iff in H as [Hc Hs].
  now rewrite (Hpq c Hc), IH.
Qed.

Lemma keyChar_lower (c : ascii) :
  (is_word c || is_code 45 c) = true -> keyChar (lower_ascii c) = true.
Proof.
  destruct c as [[] [] [] [] [] [] [] []]; vm_compute; intros H;
    reflexivity || discriminate.
Qed.

(** The characters of a cleaned key. *)
Lemma cleanKeyOf_chars (key : string) : allChars keyChar (cleanKeyOf key) = true.
Proof.
  unfold cleanKeyOf.
  rewrite !replace_Chr_delete, replace_Plus_Chr.
  set (s1 := keepChars _ (trim key)).
  set (s2 := collapseRuns _ "_" false s1).
  apply (allChars_toLowerCase (fun c => is_word c || is_code 45 c)).
  - exact keyChar_lower.
  - assert (H2 : allChars (fun c => negb (is_space c)) s2 = true).
    { apply allChars_collapseRuns; [|reflexivity].
      intros c Hc. apply orb_false_iff in Hc as [Hc _]. now rewrite Hc. }
    assert (H3 : allChars (fun c => negb (is_space c))
                   (keepChars
                      (fun c => negb (negb (is_word c || is_space c
                                            || is_code 45 c))) s2) = true)
      by now apply allChars_keepChars_other.
    pose proof (allChars_keepChars
                  (fun c => negb (negb (is_word c || is_space c
                                        || is_code 45 c))) s2) as H4.
    revert H3 H4.
    generalize (keepChars
                  (fun c => negb (negb (is_word c || is_space c
                                        || is_code 45 c))) s2).
    intros s. induction s as [|c s IH]; cbn [allChars]; [reflexivity|].
    intros H3 H4.
    apply andb_true_iff in H3 as [Hn H3]. apply andb_true_iff in H4 as [Hw H4].
    rewrite IH by assumption. rewrite andb_true_r.
    destruct (is_space c); [discriminate|].
    rewrite negb_involutive, orb_false_r in Hw. exact Hw.
Qed.

(** The white space of a cleaned value. *)
Lemma cleanValueOf_chars (value : string) :
  allChars valueChar (cleanValueOf value) = true
  /\ noDouble is_space false (cleanValueOf value) = true.
Proof.
  unfold cleanValueOf. rewrite replace_Plus_Chr. split.
  - apply allChars_collapseRuns; [|reflexivity].
    intros c Hc. unfold valueChar. now rewrite Hc.
  - now apply (noDouble_collapseRuns is_space " "%char).
Qed.

Lemma cleanEntry_set k v o :
  cleanKey k = true -> cleanValue v = true -> cleanEntry o ->
  cleanEntry (set k v o).
Proof.
  intros Hk Hv Ho. unfold cleanEntry in *. rewrite Forall_forall in *.
  intros kv Hin. apply In_set in Hin as [Hin| ->]; [now apply Ho | now split].
Qed.

Lemma processLine_clean (st : Obj * bool) (line : string) :
  cleanEntry (fst st) -> cleanEntry (fst (processLine st line)).
Proof.
  intros Hst. unfold processLine.
  destruct (match_ keyValuePattern line) as [caps|]; [|exact Hst].
  destruct (nonempty (cleanKeyOf (capture 1 caps))) eqn:Hk; [|exact Hst].
  destruct (nonempty (cleanValueOf (capture 2 caps))) eqn:Hv; [|exact Hst].
  cbn [andb fst]. apply cleanEntry_set; [| |exact Hst].
  - unfold cleanKey. now rewrite Hk, cleanKeyOf_chars.
  - unfold cleanValue. rewrite Hv.
    now destruct (cleanValueOf_chars (capture 2 caps)) as [-> ->].
Qed.

Lemma fold_processLine_clean (lines : list string) (st : Obj * bool) :
  cleanEntry (fst st) -> cleanEntry (fst (fold_left processLine lines st)).
Proof.
  revert st. induction lines as [|line lines IH]; intros st Hst; cbn; auto.
  apply IH. now apply processLine_clean.
Qed.

(** X7. Every field of every Record of the key/value extractor has a key
    that is not empty and made only of lower-case letters, digits,
    underscores and hyphens, and a value that is a non-empty string whose
    only white space is single plain spaces. *)
Theorem extractKeyValuePairs_clean (text : string) :
  Forall cleanEntry (extractKeyValuePairs text).
Proof.
  unfold extractKeyValuePairs. apply Forall_flat_map, Forall_forall.
  intros block _. unfold processBlock.
  pose proof (fold_processLine_clean (linesOf block) ([], false)
                (Forall_nil _)) as H.
  destruct (fold_left processLine (linesOf block) ([], false))
    as [currentEntry hasValidPair].
  destruct hasValidPair; repeat constructor. exact H.
Qed.

(** *** Repeated keys in a block *)

Lemma get_assign (k : string) (source : Obj) :
  k <> "__proto__"%string ->
  forall target,
    get k (assign target source)
    = match get k (rev source) with
      | Some v => Some v
      | None => get k target
      end.
Proof.
  intros Hk. unfold assign.
  induction source as [|[k0 v0] source IH]; intros target;
    cbn [fold_left rev]; [reflexivity|].
  rewrite IH, get_app. cbn [fst snd get].
  destruct (get k (rev source)); [reflexivity|].
  destruct (String.eqb_spec k k0) as [<-|Hne].
  - now apply get_set_same.
  - now apply get_set_other.
Qed.

Lemma keys_assign_In (source : Obj) :
  forall target k,
    In k (keys (assign target source))
    <-> In k (keys target)
        \/ (In k (keys source) /\ k <> "__proto__"%string).
Proof.
  unfold assign.
  induction source as [|[k0 v0] source IH]; intros target k; cbn [fold_left].
  - cbn. tauto.
  - rewrite IH, In_keys_set_iff, keys_cons. cbn [fst In]. split.
    + intros [[H|[-> H]]|[H1 H2]]; auto.
    + intros [H|[[->|H1] H2]]; auto.
Qed.

Lemma fold_processLine_pairs (lines : list string) (st : Obj * bool) :
  fst (fold_left processLine lines st)
  = assign (fst st) (flat_map pairOfLine lines).
Proof.
  revert st. induction lines as [|line lines IH]; intros st; cbn [fold_left flat_map];
    [reflexivity|].
  rewrite IH. unfold assign. rewrite fold_left_app. f_equal.
  unfold processLine, pairOfLine.
  destruct (match_ keyValuePattern line) as [caps|]; [|reflexivity].
  destruct (nonempty _ && nonempty _); reflexivity.
Qed.

(** X8. In a block, a key that occurs on several valid lines is one field
    of the Record, and it reads as the value of its last line; the keys of
    the Record are the cleaned keys of the valid lines other than
    [__proto__], each once. *)
Theorem processBlock_last_value_wins (block : string) :
  entryOf block = assign [] (pairsOf block) /\
  (forall k, k <> "__proto__"%string ->
     get k (entryOf block) = get k (rev (pairsOf block))) /\
  (forall k, In k (keys (entryOf block))
             <-> In k (keys (pairsOf block)) /\ k <> "__proto__"%string) /\
  NoDup (keys (entryOf block)).
Proof.
  assert (H : entryOf block = assign [] (pairsOf block))
    by apply fold_processLine_pairs.
  split; [exact H|]. rewrite H. split; [|split].
  - intros k Hk. rewrite get_assign by exact Hk.
    now destruct (get k (rev (pairsOf block))).
  - intros k. rewrite keys_assign_In. cbn. tauto.
  - apply built_assign, built_nil.
Qed.

Lemma processBlock_last_value_wins_witness :
  get "size" (entryOf ("Size: 1" ++ nl ++ "Name: a" ++ nl ++ "size = 2")%string)
  = Some (JStr "2").
Proof.
  exact (proj1 (proj2 (processBlock_last_value_wins
                         ("Size: 1" ++ nl ++ "Name: a" ++ nl ++ "size = 2")%string))
           "size"%string ltac:(discriminate)).
Defined.

(** ** What parseDocument resolves to *)

Lemma removeDuplicates_nonempty (entries : list Obj) :
  entries <> [] -> removeDuplicates entries <> [].
Proof.
  destruct entries as [|x entries]; [contradiction|]. intros _.
  unfold removeDuplicates. rewrite removeDuplicates_from_cons. discriminate.
Qed.

Lemma parseDocument_resolved (input : Input) (isWordDoc : bool)
    (records : list Row) :
  parseDocument input isWordDoc = Resolved records ->
  exists entries,
    entries <> [] /\ gatherEntries input isWordDoc = Done entries
    /\ records = mergeEntries entries.
Proof.
  unfold parseDocument. intros H.
  destruct (gatherEntries input isWordDoc) as [[|e es]|m|]; try discriminate.
  injection H as <-. exists (e :: es). repeat split. discriminate.
Qed.

(** X9. Whatever parseDocument resolves to is a non-empty table: at least
    one Record, and every Record with the same keys in the same order, none
    of them twice. *)
Theorem parseDocument_resolves_to_table (input : Input) (isWordDoc : bool)
    (records : list Row) :
  parseDocument input isWordDoc = Resolved records ->
  records <> [] /\
  exists header,
    NoDup header /\ Forall (fun r => keys r = header) records.
Proof.
  intros H. apply parseDocument_resolved in H as (entries & Hne & _ & ->).
  rewrite mergeEntries_unfold. split.
  - intros Hnil. apply map_eq_nil in Hnil.
    now apply (removeDuplicates_nonempty entries).
  - exists (keys (padEntry (allKeysOf (removeDuplicates entries)) [])).
    split; [unfold padEntry; apply fold_set_NoDup; constructor|].
    apply Forall_forall. intros r Hr. apply in_map_iff in Hr as [e [<- _]].
    apply padEntry_keys.
Qed.

Lemma parseDocument_resolves_to_table_witness :
  parseDocument (Text "42") false = Resolved [[("value", Data (JStr "42"))]] /\
  [[("value", Data (JStr "42"))]] <> ([] : list Row).
Proof.
  assert (H : parseDocument (Text "42") false
              = Resolved [[("value", Data (JStr "42"))]])
    by (vm_compute; reflexivity).
  split; [exact H|].
  exact (proj1 (parseDocument_resolves_to_table (Text "42") false _ H)).
Defined.

(** ** The embedding on sample inputs *)

Example cleanKeyOf_sample : cleanKeyOf " First  Name (x) " = "first_name_x"%string.
Proof. vm_compute. reflexivity. Qed.

Example cleanValueOf_sample :
  cleanValueOf ("  " ++ dquote ++ "hello   world" ++ dquote ++ " ")%string
  = "hello world"%string.
Proof. vm_compute. reflexivity. Qed.

(** One level of inner braces is matched; a span nested deeper is found
    from its second level on. *)
Example jsonRegex_sample :
  matchAll jsonRegex "a {b {c} d} e [1, [2], 3] f {x"
  = ["{b {c} d}"; "[1, [2], 3]"]%string
  /\ matchAll jsonRegex "{a {b {c} d} e}" = ["{b {c} d}"]%string.
Proof. split; vm_compute; reflexivity. Qed.

Example blockSeparator_sample :
  split blockSeparator ("a" ++ nl ++ nl ++ "b{c}d")%string
  = ["a"; "b"; "c"; "d"]%string.
Proof. vm_compute. reflexivity. Qed.

Example JSON_parse_sample :
  JSON_parse ("{" ++ dquote ++ "user" ++ dquote ++ ": {" ++ dquote ++ "tags"
              ++ dquote ++ ":[1, true,null, -0]} }")%string
  = Parsed (JObj [("user",
                   JObj [("tags", JArr [JNum "1"; JBool true; JNull;
                                        JNum "0"])])])
  /\ JSON_parse "[1,]" = SyntaxError
  /\ JSON_parse "hello" = SyntaxError
  /\ JSON_parse "01" = SyntaxError
  /\ JSON_parse "1.5 apples" = SyntaxError
  /\ JSON_parse "[1.50, 0.1e-6, 25e19, 1e21, 9007199254740993, -1e-400, 2e308]"
     = Parsed (JArr [JNum "1.5"; JNum "1e-7"; JNum "250000000000000000000";
                     JNum "1e+21"; JNum "9007199254740992"; JNum "0";
                     JNum "Infinity"]).
Proof. repeat split; vm_compute; reflexivity. Qed.

(** The members of a parsed object are enumerated as the engine does it: a
    repeated key keeps its first place and its last value, and the array
    indices come first. *)
Example JSON_parse_order_sample :
  JSON_parse ("{" ++ dquote ++ "b" ++ dquote ++ ":1," ++ dquote ++ "10"
              ++ dquote ++ ":2," ++ dquote ++ "2" ++ dquote ++ ":3,"
              ++ dquote ++ "b" ++ dquote ++ ":4," ++ dquote ++ "01" ++ dquote
              ++ ":5}")%string
  = Parsed (JObj [("2", JNum "3"); ("10", JNum "2"); ("b", JNum "4");
                  ("01", JNum "5")]).
Proof. vm_compute. reflexivity. Qed.

Example renderLiteral_sample :
  map (fun l => renderLiteral false (fst l) (snd l))
    [("30000000000000004", -17); ("5", -324); ("3", -324);
     ("17976931348623157", 292); ("123456789012345678901", 0);
     ("1", -7); ("1", 21); ("4", 400)]%Z
  = ["0.30000000000000004"; "5e-324"; "5e-324"; "1.7976931348623157e+308";
     "123456789012345680000"; "1e-7"; "1e+21"; "Infinity"]%string.
Proof. vm_compute. reflexivity. Qed.

(** A Record that lacks a field and a Record that holds the empty string
    under it are both kept, and are the same Record after padding. *)
Example mergeEntries_pads_into_duplicate :
  mergeEntries [[("a", JStr "1")]; [("a", JStr "1"); ("b", JStr "")]]
  = [[("a", Data (JStr "1")); ("b", Data (JStr ""))];
     [("a", Data (JStr "1")); ("b", Data (JStr ""))]].
Proof. vm_compute. reflexivity. Qed.

(** A document with an embedded object and a key/value block: the object
    is found by both extractors, once as JSON and once as a key/value line,
    and the two finds collapse. *)
Example parseDocument_sample :
  parseDocument
    (Document (Some ("Report {" ++ dquote ++ "id" ++ dquote ++ ": 7}" ++ nl
                     ++ nl ++ "Owner: Ann")%string)) true
  = Resolved [[("id", Data (JStr "7")); ("owner", Data (JStr ""))];
              [("id", Data (JStr "")); ("owner", Data (JStr "Ann"))]].
Proof. vm_compute. reflexivity. Qed.

(** Rendering an object that owns a property [toString] throws, since a
    JSON value cannot be called; any other object renders as
    [[object Object]]. *)
Example String_sample :
  String_ (JArr [JNum "1"; JNull; JArr [JBool true; JObj [("a", JNull)]]])
  = Some "1,,true,[object Object]"%string
  /\ String_ (JArr [JNum "1"; JObj [("toString", JNum "1")]]) = None
  /\ flattenObject
       (JObj [("a", JArr [JNum "1"; JObj [("toString", JNum "1")]])]) ""
     = None
  /\ normalizeData (JArr [JArr [JObj [("toString", JNum "1")]];
                          JArr [JNum "1"]])
     = Thrown "TypeError".
Proof. repeat split; vm_compute; reflexivity. Qed.

(** A header [__proto__] over a cell that is an object makes the row
    replace the prototype of its Record, which the embedding does not
    render; over any other cell the write adds no property. *)
Example normalizeData_proto_sample :
  normalizeData (JArr [JArr [JStr "__proto__"; JStr "a"];
                       JArr [JObj []; JNum "1"]])
  = Beyond
  /\ normalizeData (JArr [JArr [JStr "__proto__"; JStr "a"];
                          JArr [JStr "x"; JNum "1"]])
     = Done [[("a", JNum "1")]].
Proof. repeat split; vm_compute; reflexivity. Qed.

(** A [null] that is an element of an array handed to the flattener is a
    field of it and flattens to the empty string; one level deeper it is
    handed to the flattener itself. *)
Example flattenObject_null_sample :
  flattenObject (JObj [("a", JArr [JArr [JNull]])]) ""
  = Some [("a_0_0", JStr "")]
  /\ flattenObject (JObj [("a", JArr [JArr [JArr [JNull]]])]) "" = None
  /\ flattenObject (JObj [("a", JArr [JNull])]) "" = None
  /\ flattenObject (JObj [("a", JArr [JNum "1"; JNull])]) ""
     = Some [("a", JStr "1, ")].
Proof. repeat split; vm_compute; reflexivity. Qed.
